(** * hardbus: a shallow embedding of [hardbus.h]

    [hardbus.h] generates, from one service description, an export adaptor
    (host side), an import adaptor and an access object (client side) on
    top of QtDBus.  The embedding follows the header: the value codec and
    the call helpers of [hardbus::internal], the connection functions of
    namespace [hardbus], and the members the macros generate for a service
    [TAG].  QtDBus itself is not part of the header; the few primitives the
    header calls are modelled with the world the processes run in. *)

From stdpp Require Import gmap strings list fin_maps.
From Stdlib Require Import ZArith DecimalString DecimalZ DecimalPos.

(** ** Results of code that may throw [hardbus::Exception] *)

Inductive result (A : Type) : Type :=
| Return (a : A)
| Throw (what : string).
Arguments Return {A} a.
Arguments Throw {A} what.

(** Objects are referred to by address; [nullptr] is [None]. *)
Abbreviation addr := nat.

(** ** Value codec *)

(** [template<class T, class = void> struct ProxyStringConverter;]
    the customization point: a specialization provides [ToString] and
    [FromString].  The header declares it and defines no specialization. *)
Class ProxyStringConverter (T : Type) : Type := {
  ToString : T → string;
  FromString : string → T
}.

(** A type usable in a signature: a C++ type with its specialization. *)
Record ArgType : Type := {
  carrier :> Type;
  converter : ProxyStringConverter carrier
}.
#[export] Existing Instance converter.

Definition ToProxyString {T : Type} `{ProxyStringConverter T} (v : T) : string :=
  ToString v.

Definition FromProxyString {T : Type} `{ProxyStringConverter T} (v : string) : T :=
  FromString v.

(** [struct FromProxyConverter]: holds a string, converts to any [T]. *)
Module FromProxyConverter.
Record t : Type := make { v_ : string }.
(** [FromProxyConverter() {}]: [v_] is a default-constructed QString. *)
Definition default : t := make "".
(** [template<class T> operator T() const] *)
Definition convert {T : Type} `{ProxyStringConverter T} (c : t) : T :=
  FromProxyString (v_ c).
End FromProxyConverter.

(** [struct ToProxyConverter]: built from any [T], converts to QString. *)
Module ToProxyConverter.
Record t : Type := wrap { v_ : string }.
Definition default : t := wrap "".
(** [template<class T> ToProxyConverter(T v) : v_{ToProxyString(v)}] *)
Definition make {T : Type} `{ProxyStringConverter T} (v : T) : t :=
  wrap (ToProxyString v).
(** [operator QString() const] *)
Definition to_QString (c : t) : string := v_ c.
End ToProxyConverter.

(** ** Service description: the [API] list and the traits *)

(** One [FUNC(OUT, NAME, ARGS)] entry; [m_out = None] is [void]. *)
Record Method : Type := {
  m_name : string;
  m_args : list ArgType;
  m_out : option ArgType
}.

(** One [SIGNAL(OUT, NAME, ARGS)] entry. *)
Record Signal : Type := {
  s_name : string;
  s_args : list ArgType
}.

(** [HARDBUS_INTERNAL_DEFINE_TRAITS_] together with the [API] macro: the
    bus names, and the functions and signals of the interface.  [method]
    and [signal] name the members of the interface, [methods] and
    [signals] list the [API] entries in the order they are written. *)
Record Traits : Type := {
  dbus_service_name : string;
  dbus_service_path : string;
  dbus_service_interface : string;
  method : Type;
  method_sig : method → Method;
  methods : list method;
  signal : Type;
  signal_sig : signal → Signal;
  signals : list signal
}.

(** A parameter pack: one [X] per declared parameter. *)
Fixpoint pack (X : Type) (ts : list ArgType) : Type :=
  match ts with
  | [] => unit
  | _ :: ts' => (X * pack X ts')%type
  end.

(** The typed parameter list of a signature. *)
Fixpoint args_t (ts : list ArgType) : Type :=
  match ts with
  | [] => unit
  | t :: ts' => (carrier t * args_t ts')%type
  end.

(** The declared return type; [void] is [unit]. *)
Definition ret_t (out : option ArgType) : Type :=
  match out with
  | None => unit
  | Some t => carrier t
  end.

Fixpoint pack_map {X Y : Type} (f : X → Y) (ts : list ArgType) : pack X ts → pack Y ts :=
  match ts with
  | [] => λ _, tt
  | _ :: ts' => λ p, (f (fst p), pack_map f ts' (snd p))
  end.

(** [ARG{str_args}...] with [ARG = ToProxyConverter]: one converter per
    typed argument. *)
Fixpoint ToProxy_pack (ts : list ArgType) : args_t ts → pack ToProxyConverter.t ts :=
  match ts with
  | [] => λ _, tt
  | t :: ts' => λ a, (ToProxyConverter.make (fst a), ToProxy_pack ts' (snd a))
  end.

(** Passing a pack of [FromProxyConverter] to a typed function: each
    converter is implicitly converted to the declared parameter type. *)
Fixpoint FromProxy_args (ts : list ArgType) : pack FromProxyConverter.t ts → args_t ts :=
  match ts with
  | [] => λ _, tt
  | t :: ts' => λ p, (FromProxyConverter.convert (fst p), FromProxy_args ts' (snd p))
  end.

(** The argument list of a bus message (a QVariantList of strings). *)
Fixpoint flatten (ts : list ArgType) : pack string ts → list string :=
  match ts with
  | [] => λ _, []
  | _ :: ts' => λ p, fst p :: flatten ts' (snd p)
  end.

(** Matching a message against a slot or signal taking one QString per
    declared parameter; the arity has to agree. *)
Fixpoint unflatten (ts : list ArgType) (l : list string) : option (pack string ts) :=
  match ts, l with
  | [], [] => Some tt
  | _ :: ts', s :: l' => option_map (λ p, (s, p)) (unflatten ts' l')
  | _, _ => None
  end.

(** ** Macro helpers of [hardbus::internal] *)

(** [CreaeteFromReturnValueImpl], void overload: [f(); return {};] *)
Definition CreaeteFromReturnValueImpl_void {T : Type} (dflt : T) (r : unit) : T :=
  dflt.

(** [CreaeteFromReturnValueImpl], non-void overload: [return {f()};] *)
Definition CreaeteFromReturnValueImpl_nonvoid {T R : Type} (ctor : R → T) (r : R) : T :=
  ctor r.

(** [CreaeteFromReturnValue<ToProxyConverter>] on a function whose return
    type is the declared [out]. *)
Definition CreaeteFromReturnValue_To (out : option ArgType) : ret_t out → ToProxyConverter.t :=
  match out return ret_t out → ToProxyConverter.t with
  | None => CreaeteFromReturnValueImpl_void ToProxyConverter.default
  | Some t => CreaeteFromReturnValueImpl_nonvoid ToProxyConverter.make
  end.

(** [CreaeteFromReturnValue<FromProxyConverter>] on a function returning
    QString (every import function does). *)
Definition CreaeteFromReturnValue_From : string → FromProxyConverter.t :=
  CreaeteFromReturnValueImpl_nonvoid FromProxyConverter.make.

(** [ProxyCallHelper<RET, ARG>(f, obj, str_args...)]: wrap every argument
    in [ARG], call [obj->*f], build [RET] from what it returns.  [f] is the
    member function already applied to [obj]; [S] is the state it runs in. *)
Definition ProxyCallHelper {RET ARGS PARAMS R S : Type}
    (mkRET : R → RET) (mkARG : ARGS → PARAMS)
    (f : PARAMS → S → R * S) (str_args : ARGS) (s : S) : RET * S :=
  let wrapped := λ s0, f (mkARG str_args) s0 in
  let '(r, s') := wrapped s in
  (mkRET r, s').

(** [ProxyCallHelper1 = ProxyCallHelper<ToProxyConverter, FromProxyConverter>]:
    string arguments in, typed call, string out. *)
Definition ProxyCallHelper1 {S : Type} (ts : list ArgType) (out : option ArgType)
    (f : args_t ts → S → ret_t out * S) (str_args : pack string ts) (s : S)
    : ToProxyConverter.t * S :=
  ProxyCallHelper (CreaeteFromReturnValue_To out)
    (λ p, FromProxy_args ts (pack_map FromProxyConverter.make ts p)) f str_args s.

(** [ProxyCallHelper2]: throws when [obj] is null, otherwise
    [ProxyCallHelper<FromProxyConverter, ToProxyConverter>]: typed
    arguments in, string call, converter out. *)
Definition ProxyCallHelper2 {S : Type} (ts : list ArgType)
    (f : addr → pack string ts → S → string * S) (obj : option addr)
    (args : args_t ts) (s : S) : result FromProxyConverter.t * S :=
  match obj with
  | None => (Throw "service not registered", s)
  | Some o =>
      let '(r, s') :=
        ProxyCallHelper CreaeteFromReturnValue_From
          (λ a, pack_map ToProxyConverter.to_QString ts (ToProxy_pack ts a)) (f o) args s in
      (Return r, s')
  end.

(** [ReturnValueOrVoid<R>(f, std::is_same<R, void>{})]: for [void] the
    result of [f] is dropped, otherwise it is converted to [R]; an
    exception thrown by [f] propagates. *)
Definition ReturnValueOrVoid (out : option ArgType)
    (r : result FromProxyConverter.t) : result (ret_t out) :=
  match r with
  | Throw what => Throw what
  | Return c =>
      match out return result (ret_t out) with
      | None => Return tt
      | Some t => Return (FromProxyConverter.convert c)
      end
  end.

(** [MakeProxyConnector<PROXY>(source, source_signal, target, target_signal)]
    connects [source_signal] to a functor; the definition is that functor:
    one emission of [target_signal] with every argument wrapped in [PROXY]. *)
Definition MakeProxyConnector {ARGS PARAMS E : Type}
    (PROXY : ARGS → PARAMS) (target_signal : PARAMS → E) : ARGS → E :=
  λ args, target_signal (PROXY args).

(** [MakeProxyConnector1 = MakeProxyConnector<FromProxyConverter>] *)
Definition MakeProxyConnector1 {E : Type} (ts : list ArgType)
    (target_signal : args_t ts → E) : pack string ts → E :=
  MakeProxyConnector
    (λ p, FromProxy_args ts (pack_map FromProxyConverter.make ts p)) target_signal.

(** [MakeProxyConnector2 = MakeProxyConnector<ToProxyConverter>] *)
Definition MakeProxyConnector2 {E : Type} (ts : list ArgType)
    (target_signal : pack string ts → E) : args_t ts → E :=
  MakeProxyConnector
    (λ a, pack_map ToProxyConverter.to_QString ts (ToProxy_pack ts a)) target_signal.

(** ** The processes and the bus *)

(** Who owns a well-known name on the bus. *)
Inductive Owner : Type := HostConn | OtherApp.

(** Objects of the client process. *)
Inductive QObj : Type :=
| AccessObj (dbus_interface_ : option addr) (parent : option addr)
| ImportObj (interface_ : addr)
| OtherObj.

(** What [qWarning()] prints. *)
Inductive Warning : Type :=
| WarnNotRegistered (service_name : string)
| WarnWrongInstance (service_name : string)
| WarnCantReconnect (service_name : string)
| WarnCannotRegisterObject (object_path : string)
| WarnCannotRegisterService (service_name : string).

(** The registrations and method calls sent over the bus connection.
    Asking the bus whether a name has an owner ([isServiceRegistered]) is a
    read and is not recorded. *)
Inductive Request : Type :=
| ReqRegisterObject (path : string) (obj : addr)
| ReqRegisterService (name : string)
| ReqCall (service path interface member : string) (args : list string).

(** A signal message on the bus. *)
Record BusSignal : Type := {
  bs_path : string;
  bs_interface : string;
  bs_member : string;
  bs_args : list string
}.


Section Service.

(** The service description the macros are instantiated with, and the
    concrete implementation of its interface: the state of an
    implementation object and what each method does to it. *)
Context (T : Traits) {State : Type}.

Abbreviation margs m := (m_args (method_sig T m)).
Abbreviation mout m := (m_out (method_sig T m)).
Abbreviation mname m := (m_name (method_sig T m)).
Abbreviation sargs s := (s_args (signal_sig T s)).
Abbreviation sname s := (s_name (signal_sig T s)).

Context (invoke : ∀ m : method T, args_t (margs m) → State → ret_t (mout m) * State).

(** An emission of a typed signal of the interface on an object. *)
Record Emission : Type := {
  em_obj : addr;
  em_signal : signal T;
  em_args : args_t (sargs em_signal)
}.

(** The bus, the host process and the client process (its object heap).
    Of the host: the implementation objects, the objects that have a live
    export adaptor ([adaptors]), and the objects that still have the
    signal connectors of an export adaptor that was destroyed when its
    constructor threw ([dangling], one entry for each such adaptor). *)
Record World : Type := {
  names : gmap string Owner;
  objects : gmap string addr;
  requests : list Request;
  impls : list State;
  adaptors : list addr;
  dangling : list addr;
  heap : list QObj;
  log : list Warning
}.

Definition set_names (f : gmap string Owner → gmap string Owner) (w : World) : World :=
  {| names := f (names w); objects := objects w; requests := requests w;
     impls := impls w; adaptors := adaptors w; dangling := dangling w;
     heap := heap w; log := log w |}.
Definition set_objects (f : gmap string addr → gmap string addr) (w : World) : World :=
  {| names := names w; objects := f (objects w); requests := requests w;
     impls := impls w; adaptors := adaptors w; dangling := dangling w;
     heap := heap w; log := log w |}.
Definition set_requests (f : list Request → list Request) (w : World) : World :=
  {| names := names w; objects := objects w; requests := f (requests w);
     impls := impls w; adaptors := adaptors w; dangling := dangling w;
     heap := heap w; log := log w |}.
Definition set_impls (f : list State → list State) (w : World) : World :=
  {| names := names w; objects := objects w; requests := requests w;
     impls := f (impls w); adaptors := adaptors w; dangling := dangling w;
     heap := heap w; log := log w |}.
Definition set_adaptors (f : list addr → list addr) (w : World) : World :=
  {| names := names w; objects := objects w; requests := requests w;
     impls := impls w; adaptors := f (adaptors w); dangling := dangling w;
     heap := heap w; log := log w |}.
Definition set_dangling (f : list addr → list addr) (w : World) : World :=
  {| names := names w; objects := objects w; requests := requests w;
     impls := impls w; adaptors := adaptors w; dangling := f (dangling w);
     heap := heap w; log := log w |}.
Definition set_heap (f : list QObj → list QObj) (w : World) : World :=
  {| names := names w; objects := objects w; requests := requests w;
     impls := impls w; adaptors := adaptors w; dangling := dangling w;
     heap := f (heap w); log := log w |}.
Definition set_log (f : list Warning → list Warning) (w : World) : World :=
  {| names := names w; objects := objects w; requests := requests w;
     impls := impls w; adaptors := adaptors w; dangling := dangling w;
     heap := heap w; log := f (log w) |}.

(** [qWarning() << ...] *)
Definition qWarning (msg : Warning) (w : World) : World :=
  set_log (λ l, l ++ [msg]) w.

Definition send (r : Request) (w : World) : World :=
  set_requests (λ l, l ++ [r]) w.

(** *** QtDBus primitives used by the header

    [QDBusConnection::registerObject] does not replace an object already
    registered at the path; [registerService] fails when another
    application owns the name; [isServiceRegistered] asks the bus whether
    the name has an owner. *)
Definition registerObject (path : string) (obj : addr) (w : World) : bool * World :=
  let w := send (ReqRegisterObject path obj) w in
  match objects w !! path with
  | Some _ => (false, w)
  | None => (true, set_objects (insert path obj) w)
  end.

Definition registerService (name : string) (w : World) : bool * World :=
  let w := send (ReqRegisterService name) w in
  match names w !! name with
  | Some OtherApp => (false, w)
  | _ => (true, set_names (insert name HostConn) w)
  end.

Definition isServiceRegistered (name : string) (w : World) : bool :=
  match names w !! name with
  | Some _ => true
  | None => false
  end.

(** *** Export adaptor *)

(** [hardbus::internal::ExportAdaptor] *)
Definition ExportAdaptor (parent : addr) (object_path service_name : string)
    (w : World) : result unit * World :=
  let '(ok, w) := registerObject object_path parent w in
  if negb ok then
    let w := qWarning (WarnCannotRegisterObject object_path) w in
    (Throw ("Cannot register object at path" +:+ object_path), w)
  else
    let '(ok, w) := registerService service_name w in
    if negb ok then
      let w := qWarning (WarnCannotRegisterService service_name) w in
      (Throw ("Cannot register service" +:+ object_path), w)
    else (Return tt, w).

(** The constructor of [ExporAdaptorFor##TAG].  The adaptor becomes a
    child of [interface] and its signal connectors ([connectror_for_##FUNC],
    default member initialisers) are made before the body runs.  When the
    body throws, the half-built adaptor is destroyed again, so an adaptor
    is live only after a successful construction; its connectors were made
    with the three-argument [QObject::connect] and stay connected to
    [interface], now with a pointer to a destroyed adaptor. *)
Definition ExporAdaptorFor_ctor (interface : addr) (w : World) : result unit * World :=
  let interface_ := interface in
  match ExportAdaptor interface_ (dbus_service_path T) (dbus_service_name T) w with
  | (Return _, w') => (Return tt, set_adaptors (λ l, l ++ [interface_]) w')
  | (Throw what, w') => (Throw what, set_dangling (λ l, l ++ [interface_]) w')
  end.

(** [HARDBUS_INTERNAL_EXPORT_FUNC_]: the slot [QString FUNC(QString...)]
    of the export adaptor, run on the state of [interface_]. *)
Definition ExporAdaptorFor_FUNC (m : method T) (str_args : pack string (margs m))
    (st : State) : string * State :=
  let helper := ProxyCallHelper1 (margs m) (mout m) (invoke m) in
  let '(r, st') := helper str_args st in
  (ToProxyConverter.to_QString r, st').

(** [hardbus::RegisterService<Traits>] and [TAG::RegisterService]:
    [new ExporAdaptorFor##TAG(service)] *)
Definition RegisterService (service : addr) (w : World) : result unit * World :=
  ExporAdaptorFor_ctor service w.

Definition TAG_RegisterService (service : addr) (w : World) : result unit * World :=
  ExporAdaptorFor_ctor service w.

(** *** Method calls over the bus *)

(** The slot of the export adaptor a message is dispatched to: by member
    name and number of string arguments. *)
Definition find_method (member : string) (n : nat) : option (method T) :=
  find (λ m, String.eqb (mname m) member && Nat.eqb (length (margs m)) n) (methods T).

(** [QDBusAbstractInterface::call]: the message goes to the owner of
    [service]; the host answers when an object with a live export
    adaptor for [interface] is registered at [path] and the adaptor has a
    matching slot.  Anything else is an error reply ([None]). *)
Definition call (service path interface member : string) (args : list string)
    (w : World) : option string * World :=
  let w := send (ReqCall service path interface member args) w in
  match names w !! service, objects w !! path with
  | Some HostConn, Some obj =>
      match impls w !! obj with
      | Some st =>
          if bool_decide (obj ∈ adaptors w) && String.eqb interface (dbus_service_interface T)
          then
            match find_method member (length args) with
            | Some m =>
                match unflatten (margs m) args with
                | Some str_args =>
                    let '(reply, st') := ExporAdaptorFor_FUNC m str_args st in
                    (Some reply, set_impls (λ l, <[obj := st']> l) w)
                | None => (None, w)
                end
            | None => (None, w)
            end
          else (None, w)
      | None => (None, w)
      end
  | _, _ => (None, w)
  end.

(** [CallFuncOverDBus(interface, func_name, str_args...)]; the import
    adaptor was constructed with the names of the traits. *)
Definition CallFuncOverDBus (interface : addr) (func_name : string)
    (str_args : list string) (w : World) : option string * World :=
  call (dbus_service_name T) (dbus_service_path T) (dbus_service_interface T)
    func_name str_args w.

(** [QDBusReply<QString>] converted to QString: the value, or a
    default-constructed string for an error reply. *)
Definition QDBusReply_value (res : option string) : string :=
  default "" res.

(** [HARDBUS_INTERNAL_IMPORT_FUNC_]: [QString FUNC(QString...)] of the
    import adaptor. *)
Definition ImportAdaptorFor_FUNC (m : method T) (this : addr)
    (str_args : pack string (margs m)) (w : World) : string * World :=
  let '(res, w') := CallFuncOverDBus this (mname m) (flatten (margs m) str_args) w in
  (QDBusReply_value res, w').

(** [HARDBUS_INTERNAL_ACCESS_FUNC_]: the override of a method in
    [AccessFor##TAG], on an object whose field is [dbus_interface_]. *)
Definition AccessFor_FUNC (m : method T) (dbus_interface_ : option addr)
    (args : args_t (margs m)) (w : World) : result (ret_t (mout m)) * World :=
  let helper := ProxyCallHelper2 (margs m) (ImportAdaptorFor_FUNC m) dbus_interface_ in
  let '(r, w') := helper args w in
  (ReturnValueOrVoid (mout m) r, w').

(** A call of method [m] through a pointer to an access object; [None]
    when the pointer does not point to one. *)
Definition facade_call (service : addr) (m : method T) (args : args_t (margs m))
    (w : World) : option (result (ret_t (mout m)) * World) :=
  match heap w !! service with
  | Some (AccessObj dbus_interface_ _) => Some (AccessFor_FUNC m dbus_interface_ args w)
  | _ => None
  end.

(** *** Signals *)

Definition find_signal (member : string) (n : nat) : option (signal T) :=
  find (λ s, String.eqb (sname s) member && Nat.eqb (length (sargs s)) n) (signals T).

(** [HARDBUS_INTERNAL_EXPORT_SIGNAL_]: the signal [FUNC(QString...)] of the
    export adaptor.  QtDBus puts an emission on the bus when the adaptor's
    parent is the object registered at the path of the traits. *)
Definition ExporAdaptorFor_SIGNAL (s : signal T) (interface_ : addr) (w : World)
    (str_args : pack string (sargs s)) : list BusSignal :=
  match objects w !! dbus_service_path T with
  | Some obj =>
      if bool_decide (obj = interface_) then
        [ {| bs_path := dbus_service_path T;
             bs_interface := dbus_service_interface T;
             bs_member := sname s;
             bs_args := flatten (sargs s) str_args |} ]
      else []
  | None => []
  end.

(** [connectror_for_##FUNC] of the export adaptor:
    [MakeProxyConnector2(interface_, &Interface::FUNC, this, &Self::FUNC)] *)
Definition ExporAdaptorFor_connectror (s : signal T) (interface_ : addr) (w : World)
    : args_t (sargs s) → list BusSignal :=
  MakeProxyConnector2 (sargs s) (ExporAdaptorFor_SIGNAL s interface_ w).

(** The implementation fires a signal: every connector made for that
    signal on that object runs; only declared signals have connectors.  A
    connector of a destroyed adaptor emits through a dangling pointer, which
    is undefined behaviour: [None].  Otherwise the connectors of the live
    export adaptors run. *)
Definition fire (w : World) (e : Emission) : option (list BusSignal) :=
  match find_signal (sname (em_signal e)) (length (sargs (em_signal e))) with
  | Some _ =>
      if bool_decide (em_obj e ∈ dangling w) then None
      else
        Some (flat_map (λ interface_,
                  if bool_decide (interface_ = em_obj e)
                  then ExporAdaptorFor_connectror (em_signal e) interface_ w (em_args e)
                  else [])
                (adaptors w))
  | None => Some []
  end.

(** [connectror_for_##FUNC] of the import adaptor:
    [MakeProxyConnector1(this, &Self::FUNC, interface_, &Interface::FUNC)] *)
Definition ImportAdaptorFor_connectror (s : signal T) (interface_ : addr)
    : pack string (sargs s) → Emission :=
  MakeProxyConnector1 (sargs s)
    (λ a, {| em_obj := interface_; em_signal := s; em_args := a |}).

(** [HARDBUS_INTERNAL_IMPORT_SIGNAL_]: QtDBus emits the signal
    [FUNC(QString...)] of an import adaptor for a bus signal sent by the
    owner of the service from the path and interface of the traits. *)
Definition ImportAdaptorFor_SIGNAL (interface_ : addr) (w : World) (bs : BusSignal)
    : list Emission :=
  match names w !! dbus_service_name T with
  | Some HostConn =>
      if String.eqb (bs_path bs) (dbus_service_path T)
         && String.eqb (bs_interface bs) (dbus_service_interface T)
      then
        match find_signal (bs_member bs) (length (bs_args bs)) with
        | Some s =>
            match unflatten (sargs s) (bs_args bs) with
            | Some str_args => [ImportAdaptorFor_connectror s interface_ str_args]
            | None => []
            end
        | None => []
        end
      else []
  | _ => []
  end.

(** A bus signal reaches every import adaptor of the client process. *)
Definition deliver (w : World) (bs : BusSignal) : list Emission :=
  flat_map (λ o,
      match o with
      | ImportObj interface_ => ImportAdaptorFor_SIGNAL interface_ w bs
      | _ => []
      end)
    (heap w).

(** From a firing on the implementation to the emissions on access
    objects; a sequence of firings is relayed one after the other, and is
    undefined as soon as one firing is. *)
Definition relay (w : World) (e : Emission) : option (list Emission) :=
  flat_map (deliver w) <$> fire w e.

Fixpoint relay_all (w : World) (es : list Emission) : option (list Emission) :=
  match es with
  | [] => Some []
  | e :: es' =>
      match relay w e, relay_all w es' with
      | Some out, Some outs => Some (out ++ outs)
      | _, _ => None
      end
  end.

(** What application code connected to the signals of [service] sees. *)
Definition observed (service : addr) (es : list Emission) : list Emission :=
  filter (λ e, em_obj e = service) es.

(** *** What other processes do to the bus *)

Inductive Event : Type :=
| NameAcquired (name : string)
| NameReleased (name : string)
| HostExports (service : addr).

Definition apply_event (e : Event) (w : World) : World :=
  match e with
  | NameAcquired name =>
      match names w !! name with
      | Some _ => w
      | None => set_names (insert name OtherApp) w
      end
  | NameReleased name => set_names (delete name) w
  | HostExports service => snd (RegisterService service w)
  end.

Definition apply_events (evs : list Event) (w : World) : World :=
  foldl (λ w e, apply_event e w) w evs.

(** *** Connection lifecycle *)

(** [hardbus::IsServiceRegistered(service_name, connection)] *)
Definition IsServiceRegistered (service_name : string) (w : World) : bool :=
  let is_registered := isServiceRegistered service_name w in
  is_registered.

(** [hardbus::IsServiceRegistered<Traits>()] *)
Definition IsServiceRegistered_Traits (w : World) : bool :=
  IsServiceRegistered (dbus_service_name T) w.

(** [loop.exec()] with [QDBusServiceWatcher::serviceRegistered] connected
    to [QEventLoop::quit]: the loop runs while other processes act and
    quits on the event that gives the name an owner.  With no such event
    among [evs] the loop is still running: [None]. *)
Fixpoint loop_exec (service_name : string) (evs : list Event) (w : World)
    : option (World * list Event) :=
  match evs with
  | [] => None
  | e :: evs' =>
      let w' := apply_event e w in
      if negb (isServiceRegistered service_name w) && isServiceRegistered service_name w'
      then Some (w', evs')
      else loop_exec service_name evs' w'
  end.

(** [hardbus::WaitForServiceRegistration(service_name, connection)];
    returns its result, the world it returns in and the events that have
    not happened yet. *)
Definition WaitForServiceRegistration (service_name : string) (evs : list Event)
    (w : World) : option (bool * World * list Event) :=
  if IsServiceRegistered service_name w then Some (true, w, evs)
  else
    match loop_exec service_name evs w with
    | Some (w', evs') => Some (true, w', evs')
    | None => None
    end.

(** [hardbus::WaitForServiceRegistration<Traits>()] *)
Definition WaitForServiceRegistration_Traits (evs : list Event) (w : World)
    : option (bool * World * list Event) :=
  WaitForServiceRegistration (dbus_service_name T) evs w.

(** [qobject_cast<AccessFor##TAG *>(service)] *)
Definition qobject_cast_access (service : option addr) (w : World) : option addr :=
  match service with
  | Some a =>
      match heap w !! a with
      | Some (AccessObj _ _) => Some a
      | _ => None
      end
  | None => None
  end.

(** [casted->dbus_interface_] *)
Definition get_dbus_interface_ (casted : addr) (w : World) : option addr :=
  match heap w !! casted with
  | Some (AccessObj dbus_interface_ _) => dbus_interface_
  | _ => None
  end.

(** [casted->dbus_interface_ = p] *)
Definition set_dbus_interface_ (casted : addr) (p : option addr) (w : World) : World :=
  match heap w !! casted with
  | Some (AccessObj _ parent) => set_heap (λ h, <[casted := AccessObj p parent]> h) w
  | _ => w
  end.

(** [new ImportAdaptorFor##TAG{interface}] *)
Definition ImportAdaptorFor_ctor (interface : addr) (w : World) : addr * World :=
  (length (heap w), set_heap (λ h, h ++ [ImportObj interface]) w).

(** [new AccessFor##TAG{parent}] *)
Definition AccessFor_ctor (parent : option addr) (w : World) : addr * World :=
  (length (heap w), set_heap (λ h, h ++ [AccessObj None parent]) w).

(** [hardbus::CreateServiceInterface<Traits>] and
    [TAG::CreateServiceInterface] *)
Definition CreateServiceInterface (parent : option addr) (w : World) : addr * World :=
  AccessFor_ctor parent w.

Definition TAG_CreateServiceInterface (parent : option addr) (w : World) : addr * World :=
  AccessFor_ctor parent w.

(** [hardbus::ConnectService<Traits>(service)] *)
Definition ConnectService (service : option addr) (w : World) : bool * World :=
  let service_name := dbus_service_name T in
  if negb (IsServiceRegistered_Traits w) then
    (false, qWarning (WarnNotRegistered service_name) w)
  else
    match qobject_cast_access service w with
    | None => (false, qWarning (WarnWrongInstance service_name) w)
    | Some casted =>
        match get_dbus_interface_ casted w with
        | Some _ => (false, qWarning (WarnCantReconnect service_name) w)
        | None =>
            let '(p, w) := ImportAdaptorFor_ctor casted w in
            (true, set_dbus_interface_ casted (Some p) w)
        end
    end.

(** [hardbus::WaitAndConnectService<Traits>(service)]:
    [WaitForServiceRegistration(traits) && ConnectService(service, traits)].
    [evs] are the events up to the moment [ConnectService] asks the bus;
    those the wait has not consumed happen between the two steps. *)
Definition WaitAndConnectService (service : option addr) (evs : list Event) (w : World)
    : option (bool * World) :=
  match WaitForServiceRegistration_Traits evs w with
  | None => None
  | Some (waited, w, rest) =>
      let w := apply_events rest w in
      if waited then Some (ConnectService service w) else Some (false, w)
  end.

(** [TAG::WaitAndConnectService(service)], generated by
    [HARDBUS_DEFINE_SERVICE]. *)
Definition TAG_WaitAndConnectService (service : option addr) (evs : list Event) (w : World)
    : option (bool * World) :=
  match WaitForServiceRegistration (dbus_service_name T) evs w with
  | None => None
  | Some (_, w, rest) =>
      let w := apply_events rest w in
      match qobject_cast_access service w with
      | None => Some (false, qWarning (WarnWrongInstance (dbus_service_name T)) w)
      | Some casted =>
          match get_dbus_interface_ casted w with
          | Some _ => Some (false, qWarning (WarnCantReconnect (dbus_service_name T)) w)
          | None =>
              let '(p, w) := ImportAdaptorFor_ctor casted w in
              Some (true, set_dbus_interface_ casted (Some p) w)
          end
      end
  end.

(** [TAG::CreateAndConnectService(parent)] *)
Definition TAG_CreateAndConnectService (parent : option addr) (evs : list Event) (w : World)
    : option (addr * World) :=
  let '(service, w) := TAG_CreateServiceInterface parent w in
  match TAG_WaitAndConnectService (Some service) evs w with
  | None => None
  | Some (_, w) => Some (service, w)
  end.

End Service.

Arguments em_obj {T} e.
Arguments em_signal {T} e.
Arguments em_args {T} e.
Arguments observed {T} service es.

(** ** Predicates the properties are stated with *)

(** The round-trip law of a converter. *)
Definition lawful (t : ArgType) : Prop :=
  ∀ v : carrier t, FromString (ToString v) = v.

Fixpoint lawful_args (ts : list ArgType) : Prop :=
  match ts with
  | [] => True
  | t :: ts' => lawful t ∧ lawful_args ts'
  end.

Definition lawful_out (out : option ArgType) : Prop :=
  match out with
  | None => True
  | Some t => lawful t
  end.

Section Predicates.

Context (T : Traits) {State : Type}.
Context (invoke : ∀ m : method T,
  args_t (m_args (method_sig T m)) → State → ret_t (m_out (method_sig T m)) * State).

(** The export adaptor declares one slot [QString FUNC(QString...)] per
    function, so two functions of an interface that compiles differ in
    name or in number of parameters; likewise for signals. *)
Definition API_ok : Prop :=
  NoDup ((λ m, (m_name (method_sig T m), length (m_args (method_sig T m)))) <$> methods T)
  ∧ NoDup ((λ s, (s_name (signal_sig T s), length (s_args (signal_sig T s)))) <$> signals T).

(** The host owns the service name, the implementation object [impl] is
    registered at the service path and has exactly one live export adaptor. *)
Definition is_exported (impl : addr) (w : World (State := State)) : Prop :=
  names w !! dbus_service_name T = Some HostConn
  ∧ objects w !! dbus_service_path T = Some impl
  ∧ filter (λ x, x = impl) (adaptors w) = [impl]
  ∧ is_Some (impls w !! impl).

(** Every export adaptor of the service registers at the same path, and a
    path is never given up: of the adaptors constructed, at most one lives. *)
Definition host_ok (w : World (State := State)) : Prop :=
  match objects w !! dbus_service_path T with
  | None => adaptors w = []
  | Some _ => length (adaptors w) ≤ 1
  end.

(** [service] points to an access object with no import adaptor. *)
Definition unbound (service : addr) (w : World (State := State)) : Prop :=
  ∃ parent, heap w !! service = Some (AccessObj None parent).

(** [service] points to an access object whose import adaptor is [p]. *)
Definition bound (service p : addr) (w : World (State := State)) : Prop :=
  (∃ parent, heap w !! service = Some (AccessObj (Some p) parent))
  ∧ heap w !! p = Some (ImportObj service).

(** Every import adaptor is the one its access object points to. *)
Definition heap_ok (w : World (State := State)) : Prop :=
  ∀ i service, heap w !! i = Some (ImportObj service) → get_dbus_interface_ service w = Some i.

(** What a successful connect of the access object [a] does to the heap,
    and what a step can do to it: nothing, a connect, or a new access
    object. *)
Definition heap_bind (a : addr) (h h' : list QObj) : Prop :=
  ∃ parent,
    h !! a = Some (AccessObj None parent)
    ∧ h' = <[a := AccessObj (Some (length h)) parent]> (h ++ [ImportObj a]).

Definition heap_step (h h' : list QObj) : Prop :=
  h' = h ∨ (∃ a, heap_bind a h h') ∨ (∃ parent, h' = h ++ [AccessObj None parent]).

(** One thing that happens in the world: another process acts on the bus,
    or the client creates an access object, connects one, or calls a
    method through one. *)
Inductive step : World (State := State) → World (State := State) → Prop :=
| step_event e w :
    step w (apply_event T e w)
| step_create parent w :
    step w (snd (CreateServiceInterface parent w))
| step_connect service w :
    step w (snd (ConnectService T service w))
| step_wait_connect service evs w b w' :
    WaitAndConnectService T service evs w = Some (b, w') → step w w'
| step_TAG_wait_connect service evs w b w' :
    TAG_WaitAndConnectService T service evs w = Some (b, w') → step w w'
| step_call service m args w r w' :
    facade_call T invoke service m args w = Some (r, w') → step w w'.

End Predicates.

(** ** What a value becomes on its way over the bus *)

(** A value is written by [ToString] on one side and read by [FromString]
    on the other. *)
Definition recode (t : ArgType) (v : carrier t) : carrier t :=
  FromString (ToString v).

Fixpoint recode_args (ts : list ArgType) : args_t ts → args_t ts :=
  match ts with
  | [] => λ _, tt
  | t :: ts' => λ a, (recode t (fst a), recode_args ts' (snd a))
  end.

Definition recode_out (out : option ArgType) : ret_t out → ret_t out :=
  match out with
  | None => λ _, tt
  | Some t => recode t
  end.

Section HostPredicates.

Context (T : Traits) {State : Type}.

(** The live export adaptors are at most the one of the object registered
    at the service path. *)
Definition host_exclusive (w : World (State := State)) : Prop :=
  match objects w !! dbus_service_path T with
  | None => adaptors w = []
  | Some obj => adaptors w = [] ∨ adaptors w = [obj]
  end.

End HostPredicates.

(** ** Low level macros

    The preprocessor macro-expands the arguments of an invocation before it
    substitutes them, and rescans the result: a macro invoked in the
    replacement text receives the pieces between the top-level commas of
    the expanded text, not the arguments as they were written.  That step
    is not part of the header; [pieces] stands for it, from the arguments
    as written to the pieces the nested invocation sees (always at least
    one, possibly empty). *)

(** [HARDBUS_INTERNAL_ARG16_(_0, ..., _15, ...)] expands to [_15]. *)
Definition HARDBUS_INTERNAL_ARG16_ (args : list string) : option string :=
  args !! 15.

(** [HARDBUS_INTERNAL_HAS_COMMA_(...)]: the expanded [__VA_ARGS__]
    followed by fourteen [1] and one [0], passed to
    [HARDBUS_INTERNAL_ARG16_]. *)
Definition HARDBUS_INTERNAL_HAS_COMMA_ (pieces : list string → list string)
    (args : list string) : option string :=
  HARDBUS_INTERNAL_ARG16_ (pieces args ++ replicate 14 "1" ++ ["0"]).

(** ** A service to run the definitions on

    An interface with a function [check : (int, QString) -> bool], a
    function [reset : () -> void] and the signals [changed(int)] and
    [finished()], with converters for [int], [QString] and [bool]. *)
Module Demo.

#[export] Instance int_converter : ProxyStringConverter Z := {|
  ToString z := NilZero.string_of_int (Z.to_int z);
  FromString s := match NilZero.int_of_string s with
                  | Some d => Z.of_int d
                  | None => 0%Z
                  end
|}.

#[export] Instance QString_converter : ProxyStringConverter string := {|
  ToString s := s;
  FromString s := s
|}.

#[export] Instance bool_converter : ProxyStringConverter bool := {|
  ToString := λ b : bool, if b then "true" else "false";
  FromString s := String.eqb s "true"
|}.

(** A converter that loses information: every value is written as the
    empty string and every string is read as [0]. *)
Definition lossy_converter : ProxyStringConverter nat := {|
  ToString := λ _ : nat, "";
  FromString := λ _, 0
|}.

Definition int_t : ArgType := {| carrier := Z; converter := int_converter |}.
Definition QString_t : ArgType := {| carrier := string; converter := QString_converter |}.
Definition bool_t : ArgType := {| carrier := bool; converter := bool_converter |}.

Inductive demo_method : Type := check | reset.
Inductive demo_signal : Type := changed | finished.

Definition demo_method_sig (m : demo_method) : Method :=
  match m with
  | check => {| m_name := "check"; m_args := [int_t; QString_t]; m_out := Some bool_t |}
  | reset => {| m_name := "reset"; m_args := []; m_out := None |}
  end.

Definition demo_signal_sig (s : demo_signal) : Signal :=
  match s with
  | changed => {| s_name := "changed"; s_args := [int_t] |}
  | finished => {| s_name := "finished"; s_args := [] |}
  end.

Definition traits : Traits := {|
  dbus_service_name := "org.demo.Service";
  dbus_service_path := "/demo";
  dbus_service_interface := "org.demo.Checker";
  method := demo_method;
  method_sig := demo_method_sig;
  methods := [check; reset];
  signal := demo_signal;
  signal_sig := demo_signal_sig;
  signals := [changed; finished]
|}.

(** The implementation keeps the arguments [check] was called with;
    [check n s] answers whether [n] is positive, [reset] forgets. *)
Definition DemoState : Type := list (Z * string).

Definition demo_invoke (m : demo_method)
    : args_t (m_args (demo_method_sig m)) → DemoState
      → ret_t (m_out (demo_method_sig m)) * DemoState :=
  match m return args_t (m_args (demo_method_sig m)) → DemoState
                 → ret_t (m_out (demo_method_sig m)) * DemoState with
  | check => λ args st, ((0 <? fst args)%Z, st ++ [(fst args, fst (snd args))])
  | reset => λ _ _, (tt, [])
  end.

(** An empty bus, a host process with one implementation object (at
    address 0) and a client process with no objects. *)
Definition start : World (State := DemoState) := {|
  names := ∅; objects := ∅; requests := [];
  impls := [[] : DemoState]; adaptors := []; dangling := [];
  heap := []; log := []
|}.

(** The host has exported its object. *)
Definition exported : World := snd (RegisterService traits 0 start).

(** The client has created an access object (at address 0) ... *)
Definition created : World := snd (CreateServiceInterface None exported).

(** ... and connected it. *)
Definition connected : World := snd (ConnectService traits (Some 0) created).

(** The client has created an access object before the host has exported
    anything. *)
Definition waiting : World := snd (CreateServiceInterface None start).

(** The implementation fires [changed(5)] and then [finished()]. *)
Definition firings : list (Emission traits) :=
  [ {| em_obj := 0; em_signal := changed : signal traits; em_args := (5%Z, tt) |};
    {| em_obj := 0; em_signal := finished : signal traits; em_args := tt |} ].

(** Macro arguments as a preprocessor run on this header sees them:
    arguments without macros are their own pieces; the one written argument
    [HARDBUS_INTERNAL_TRIGGER_PARENTHESIS_ ()] expands to a comma, that is
    to two empty pieces. *)
Definition pieces (args : list string) : list string :=
  if decide (args = ["HARDBUS_INTERNAL_TRIGGER_PARENTHESIS_ ()"]) then [""; ""]
  else args.

(** The service name is given up after the client connected. *)
Definition released : World := apply_event traits (NameReleased "org.demo.Service") connected.

(** Another application owns the service name before the host starts. *)
Definition taken : World := apply_event traits (NameAcquired "org.demo.Service") start.

End Demo.

(** * Properties *)

(** ** Value codec *)

Lemma int_converter_lawful : lawful Demo.int_t.
Proof.
  intros z. cbn.
  rewrite NilZero.isi.
  - apply DecimalZ.of_to.
  - destruct z as [|p|p]; cbn; try discriminate.
    intros [= H]. by apply Unsigned.to_uint_nonnil in H.
  - destruct z as [|p|p]; cbn; try discriminate.
    intros [= H]. by apply Unsigned.to_uint_nonnil in H.
Qed.

Lemma QString_converter_lawful : lawful Demo.QString_t.
Proof. by intros s. Qed.

Lemma bool_converter_lawful : lawful Demo.bool_t.
Proof. by intros []. Qed.

(** Through the two converter structs a value travels as its string. *)
Lemma converters_compose {T : Type} `{ProxyStringConverter T} (v : T) :
  FromProxyConverter.convert
    (FromProxyConverter.make (ToProxyConverter.to_QString (ToProxyConverter.make v)))
  = FromString (ToString v).
Proof. reflexivity. Qed.

Lemma pack_round_trip (ts : list ArgType) (a : args_t ts) :
  lawful_args ts →
  FromProxy_args ts
    (pack_map FromProxyConverter.make ts
       (pack_map ToProxyConverter.to_QString ts (ToProxy_pack ts a))) = a.
Proof.
  induction ts as [|t ts IH]; intros Hlaw.
  - by destruct a.
  - destruct a as [v a], Hlaw as [Ht Hts]. cbn.
    rewrite IH by done. f_equal. apply Ht.
Qed.

Lemma unflatten_flatten (ts : list ArgType) (p : pack string ts) :
  unflatten ts (flatten ts p) = Some p.
Proof.
  induction ts as [|t ts IH]; cbn.
  - by destruct p.
  - destruct p as [s p]. cbn. by rewrite IH.
Qed.

Lemma length_flatten (ts : list ArgType) (p : pack string ts) :
  length (flatten ts p) = length ts.
Proof. induction ts as [|t ts IH]; cbn; [done|]. by rewrite IH. Qed.


(** Conversely, a round trip through the header's functions for every
    value is the round-trip law of the registered converter. *)
Lemma codec_round_trip_only_if (t : ArgType) :
  (∀ v : carrier t, FromProxyString (ToProxyString v) = v) → lawful t.
Proof. intros H v. apply H. Qed.

(** C4 as stated fails: the header accepts any specialization of the
    customization point, and for the lossy converter decoding the encoding
    of [1] yields [0]. *)
Lemma codec_round_trip_counterexample :
  @FromProxyString nat Demo.lossy_converter (@ToProxyString nat Demo.lossy_converter 1) = 0
  ∧ ¬ (∀ (T : Type) (C : ProxyStringConverter T) (v : T),
         @FromProxyString T C (@ToProxyString T C v) = v).
Proof.
  split; [reflexivity|].
  intros Hall. specialize (Hall nat Demo.lossy_converter 1). discriminate Hall.
Qed.

(** C4, amended: for a registered type whose converter satisfies the
    round-trip law, [FromProxyString (ToProxyString v)] is [v], also when
    the value travels through [ToProxyConverter] and [FromProxyConverter];
    the header adds nothing to and takes nothing from what the registered
    converter does. *)
Theorem codec_round_trip (t : ArgType) (Hlaw : lawful t) (v : carrier t) :
  FromProxyString (ToProxyString v) = v
  ∧ FromProxyConverter.convert
      (FromProxyConverter.make (ToProxyConverter.to_QString (ToProxyConverter.make v))) = v.
Proof. split; [apply Hlaw | rewrite converters_compose; apply Hlaw]. Qed.

Lemma codec_round_trip_witness :
  @FromProxyString Z Demo.int_converter (@ToProxyString Z Demo.int_converter (-42)%Z)
  = (-42)%Z
  ∧ @FromProxyConverter.convert Z Demo.int_converter
      (FromProxyConverter.make
         (ToProxyConverter.to_QString
            (@ToProxyConverter.make Z Demo.int_converter (-42)%Z))) = (-42)%Z.
Proof. apply (codec_round_trip Demo.int_t int_converter_lawful (-42)%Z). Defined.

(** ** Lists and lookups *)

Lemma NoDup_fmap_inj_on {A B : Type} (f : A → B) (l : list A) (x y : A) :
  NoDup (f <$> l) → x ∈ l → y ∈ l → f x = f y → x = y.
Proof.
  induction l as [|z l IH]; intros Hnd Hx Hy Hf; [by apply elem_of_nil in Hx|].
  rewrite fmap_cons in Hnd. apply NoDup_cons in Hnd as [Hz Hnd].
  apply elem_of_cons in Hx as [->|Hx], Hy as [->|Hy]; try done.
  - exfalso. apply Hz. rewrite Hf. by apply list_elem_of_fmap_2.
  - exfalso. apply Hz. rewrite <- Hf. by apply list_elem_of_fmap_2.
  - by apply IH.
Qed.

Lemma find_unique {A : Type} (P : A → bool) (l : list A) (x : A) :
  x ∈ l → P x = true → (∀ y, y ∈ l → P y = true → y = x) → find P l = Some x.
Proof.
  induction l as [|z l IH]; intros Hx HP Huniq; [by apply elem_of_nil in Hx|].
  cbn. destruct (P z) eqn:HPz.
  - f_equal. apply Huniq; [apply elem_of_cons; by left | done].
  - apply IH; [|done|].
    + apply elem_of_cons in Hx as [->|Hx]; [congruence | done].
    + intros y Hy. apply Huniq, elem_of_cons. by right.
Qed.

Lemma find_exists {A : Type} (P : A → bool) (l : list A) (x : A) :
  x ∈ l → P x = true → ∃ y, find P l = Some y ∧ y ∈ l ∧ P y = true.
Proof.
  intros Hx HP. destruct (find P l) as [y|] eqn:Hfind.
  - apply find_some in Hfind as [Hin HPy]. exists y.
    split; [done|]. split; [by apply list_elem_of_In | done].
  - apply list_elem_of_In in Hx.
    pose proof (find_none P l Hfind x Hx). congruence.
Qed.

Lemma flat_map_if_filter {A B : Type} (f : A → list B) (P : A → Prop)
    `{∀ x, Decision (P x)} (l : list A) :
  flat_map (λ x, if bool_decide (P x) then f x else []) l = flat_map f (filter P l).
Proof.
  induction l as [|x l IH]; [done|].
  rewrite filter_cons. cbn [flat_map]. rewrite IH.
  rewrite bool_decide_decide. by destruct (decide (P x)).
Qed.

Lemma filter_flat_map {A B : Type} (f : A → list B) (P : B → Prop)
    `{∀ x, Decision (P x)} (l : list A) :
  filter P (flat_map f l) = flat_map (λ x, filter P (f x)) l.
Proof.
  induction l as [|x l IH]; [done|].
  cbn [flat_map]. by rewrite filter_app, IH.
Qed.

Lemma flat_map_nil_ext {A B : Type} (f : A → list B) (l : list A) :
  (∀ x, x ∈ l → f x = []) → flat_map f l = [].
Proof.
  induction l as [|x l IH]; intros Hf; [done|].
  cbn. rewrite Hf by (apply elem_of_cons; by left).
  cbn. apply IH. intros y Hy. apply Hf, elem_of_cons. by right.
Qed.

(** A list with one distinguished position: a function that is empty
    everywhere else contributes exactly once. *)
Lemma flat_map_single {A B : Type} (f : A → list B) (l : list A) (i : nat) (x : A) :
  l !! i = Some x →
  (∀ j y, l !! j = Some y → j ≠ i → f y = []) →
  flat_map f l = f x.
Proof.
  intros Hi Hother.
  rewrite <- (take_drop_middle l i x Hi).
  rewrite flat_map_app. cbn.
  rewrite (flat_map_nil_ext f (take i l)), (flat_map_nil_ext f (drop (S i) l)).
  - cbn. by rewrite app_nil_r.
  - intros y Hy. apply list_elem_of_lookup in Hy as [j Hj].
    rewrite lookup_drop in Hj. apply (Hother _ _ Hj). lia.
  - intros y Hy. apply list_elem_of_lookup in Hy as [j Hj].
    apply lookup_take_Some in Hj as [Hj Hlt].
    apply (Hother _ _ Hj). lia.
Qed.

Lemma filter_all {A : Type} (P : A → Prop) `{∀ x, Decision (P x)} (l : list A) :
  (∀ x, x ∈ l → P x) → filter P l = l.
Proof.
  induction l as [|x l IH]; intros HP; [done|].
  rewrite filter_cons_True by (apply HP, elem_of_cons; by left).
  f_equal. apply IH. intros y Hy. apply HP, elem_of_cons. by right.
Qed.

Lemma filter_none {A : Type} (P : A → Prop) `{∀ x, Decision (P x)} (l : list A) :
  (∀ x, x ∈ l → ¬ P x) → filter P l = [].
Proof.
  induction l as [|x l IH]; intros HP; [done|].
  rewrite filter_cons_False by (apply HP, elem_of_cons; by left).
  apply IH. intros y Hy. apply HP, elem_of_cons. by right.
Qed.

Section Properties.

Context (T : Traits) {State : Type}.
Context (invoke : ∀ m : method T,
  args_t (m_args (method_sig T m)) → State → ret_t (m_out (method_sig T m)) * State).

Implicit Types w : World (State := State).
Implicit Types a p impl : addr.

Local Abbreviation svc := (dbus_service_name T).
Local Abbreviation path := (dbus_service_path T).
Local Abbreviation iface := (dbus_service_interface T).

Ltac unfold_world :=
  cbn [names objects requests impls adaptors dangling heap log
       set_names set_objects set_requests set_impls set_adaptors set_dangling
       set_heap set_log
       qWarning send fst snd] in *.

(** ** Lookup of slots and signals *)

Lemma find_method_declared (m : method T) :
  API_ok T → m ∈ methods T →
  find_method T (m_name (method_sig T m)) (length (m_args (method_sig T m))) = Some m.
Proof.
  intros [Hnd _] Hm. apply find_unique; [done| |].
  - by rewrite String.eqb_refl, Nat.eqb_refl.
  - intros y Hy HP. apply andb_true_iff in HP as [Hn Hl].
    apply String.eqb_eq in Hn. apply Nat.eqb_eq in Hl.
    eapply NoDup_fmap_inj_on; [exact Hnd|done|done|]. cbn. congruence.
Qed.

Lemma find_signal_declared (s : signal T) :
  s ∈ signals T →
  ∃ s', find_signal T (s_name (signal_sig T s)) (length (s_args (signal_sig T s))) = Some s'
        ∧ s_name (signal_sig T s') = s_name (signal_sig T s)
        ∧ length (s_args (signal_sig T s')) = length (s_args (signal_sig T s)).
Proof.
  intros Hs. unfold find_signal.
  edestruct (find_exists
    (λ s0, String.eqb (s_name (signal_sig T s0)) (s_name (signal_sig T s))
           && Nat.eqb (length (s_args (signal_sig T s0))) (length (s_args (signal_sig T s))))
    (signals T) s Hs) as (s' & Hfind & _ & HP).
  { by rewrite String.eqb_refl, Nat.eqb_refl. }
  exists s'. split; [done|].
  apply andb_true_iff in HP as [Hn Hl].
  by apply String.eqb_eq in Hn; apply Nat.eqb_eq in Hl.
Qed.

Lemma find_signal_unique (s : signal T) :
  API_ok T → s ∈ signals T →
  find_signal T (s_name (signal_sig T s)) (length (s_args (signal_sig T s))) = Some s.
Proof.
  intros [_ Hnd] Hs. apply find_unique; [done| |].
  - by rewrite String.eqb_refl, Nat.eqb_refl.
  - intros y Hy HP. apply andb_true_iff in HP as [Hn Hl].
    apply String.eqb_eq in Hn. apply Nat.eqb_eq in Hl.
    eapply NoDup_fmap_inj_on; [exact Hnd|done|done|]. cbn. congruence.
Qed.

(** ** What the connection functions do to the world *)

Lemma get_dbus_interface_Some a p w :
  get_dbus_interface_ a w = Some p ↔ ∃ parent, heap w !! a = Some (AccessObj (Some p) parent).
Proof.
  unfold get_dbus_interface_. split.
  - destruct (heap w !! a) as [[d parent| |]|]; try done. intros ->. by exists parent.
  - by intros [parent ->].
Qed.

Lemma unbound_get_dbus_interface_ a w :
  unbound a w → get_dbus_interface_ a w = None ∧ qobject_cast_access (Some a) w = Some a.
Proof. intros [parent H]. unfold get_dbus_interface_, qobject_cast_access. by rewrite H. Qed.

(** A successful [ConnectService]: the service was registered, the pointer
    was an unbound access object; one import adaptor is allocated and the
    access object points to it.  Nothing else changes. *)
Lemma ConnectService_true service w w' :
  ConnectService T service w = (true, w') →
  ∃ a parent,
    service = Some a
    ∧ IsServiceRegistered_Traits T w = true
    ∧ heap w !! a = Some (AccessObj None parent)
    ∧ w' = set_heap
             (λ h, <[a := AccessObj (Some (length (heap w))) parent]> (h ++ [ImportObj a])) w.
Proof.
  unfold ConnectService. destruct (IsServiceRegistered_Traits T w); [|done].
  cbn [negb]. destruct service as [a|]; [|done]. cbn [qobject_cast_access].
  destruct (heap w !! a) as [[d parent| |]|] eqn:Ha; try done.
  unfold get_dbus_interface_. rewrite Ha. destruct d as [d|]; [done|].
  unfold ImportAdaptorFor_ctor, set_dbus_interface_. unfold_world.
  rewrite (lookup_app_l_Some _ _ _ _ Ha).
  intros [= <-]. by exists a, parent.
Qed.

Lemma ConnectService_unbound a w :
  IsServiceRegistered_Traits T w = true → unbound a w →
  ∃ parent,
    heap w !! a = Some (AccessObj None parent)
    ∧ ConnectService T (Some a) w
      = (true, set_heap
           (λ h, <[a := AccessObj (Some (length (heap w))) parent]> (h ++ [ImportObj a])) w).
Proof.
  intros Hreg [parent Ha]. exists parent. split; [done|].
  unfold ConnectService. rewrite Hreg. cbn [negb qobject_cast_access].
  rewrite Ha. cbn beta iota. unfold get_dbus_interface_. rewrite Ha.
  unfold ImportAdaptorFor_ctor, set_dbus_interface_. unfold_world.
  by rewrite (lookup_app_l_Some _ _ _ _ Ha).
Qed.

Lemma ConnectService_true_bound a w w' :
  ConnectService T (Some a) w = (true, w') → unbound a w ∧ bound a (length (heap w)) w'.
Proof.
  intros H. apply ConnectService_true in H as (a' & parent & [= <-] & _ & Ha & ->).
  split; [by exists parent|].
  pose proof (lookup_lt_Some _ _ _ Ha) as Hlt.
  split; unfold_world.
  - exists parent. apply list_lookup_insert_eq. rewrite length_app. lia.
  - rewrite list_lookup_insert_ne by lia. by apply list_lookup_middle.
Qed.

(** [ConnectService] on a bound access object: no mutation, a warning only. *)
Lemma ConnectService_bound a p w :
  get_dbus_interface_ a w = Some p →
  ConnectService T (Some a) w
  = (false, qWarning (if IsServiceRegistered_Traits T w
                      then WarnCantReconnect svc else WarnNotRegistered svc) w).
Proof.
  intros Hb. unfold ConnectService.
  destruct (IsServiceRegistered_Traits T w); [|done].
  pose proof Hb as Hb'. apply get_dbus_interface_Some in Hb' as [parent Ha].
  cbn [negb qobject_cast_access]. rewrite Ha. cbn beta iota. by rewrite Hb.
Qed.

Lemma ConnectService_not_registered service w :
  IsServiceRegistered_Traits T w = false →
  ConnectService T service w = (false, qWarning (WarnNotRegistered svc) w).
Proof. intros H. unfold ConnectService. by rewrite H. Qed.

(** Other processes do not touch the objects of the client. *)
Lemma apply_event_heap e w : heap (apply_event T e w) = heap w.
Proof.
  destruct e as [name|name|service]; cbn.
  - by destruct (names w !! name).
  - done.
  - unfold RegisterService, ExporAdaptorFor_ctor, ExportAdaptor, registerObject.
    unfold_world. destruct (objects w !! path); [done|].
    cbn [negb]. unfold registerService. unfold_world.
    by destruct (names w !! svc) as [[]|].
Qed.

Lemma apply_events_heap evs w : heap (apply_events T evs w) = heap w.
Proof.
  revert w. induction evs as [|e evs IH]; intros w; [done|].
  cbn. unfold apply_events in IH. by rewrite IH, apply_event_heap.
Qed.

Lemma loop_exec_heap name evs w w' rest :
  loop_exec T name evs w = Some (w', rest) → heap w' = heap w.
Proof.
  revert w. induction evs as [|e evs IH]; intros w; [done|].
  cbn. destruct (_ && _).
  - intros [= <- <-]. apply apply_event_heap.
  - intros H. apply IH in H. by rewrite H, apply_event_heap.
Qed.

Lemma WaitForServiceRegistration_heap name evs w b w' rest :
  WaitForServiceRegistration T name evs w = Some (b, w', rest) → heap w' = heap w.
Proof.
  unfold WaitForServiceRegistration. destruct (IsServiceRegistered name w).
  - by intros [= <- <- <-].
  - destruct (loop_exec T name evs w) as [[w1 r1]|] eqn:Hloop; [|done].
    intros [= <- <- <-]. by eapply loop_exec_heap.
Qed.

Lemma unbound_heap a w1 w2 : heap w1 = heap w2 → unbound a w1 → unbound a w2.
Proof. intros Hh [parent Ha]. exists parent. by rewrite <- Hh. Qed.

Lemma bound_heap a p w1 w2 : heap w1 = heap w2 → bound a p w1 → bound a p w2.
Proof. intros Hh [[parent Ha] Hp]. split; [exists parent|]; by rewrite <- Hh. Qed.

(** A freshly constructed access object is unbound. *)
Lemma CreateServiceInterface_unbound parent w :
  fst (CreateServiceInterface parent w) = length (heap w)
  ∧ unbound (length (heap w)) (snd (CreateServiceInterface parent w)).
Proof.
  split; [done|]. exists parent. unfold CreateServiceInterface, AccessFor_ctor.
  unfold_world. by apply list_lookup_middle.
Qed.

(** A failed [ConnectService] only prints a warning. *)
Lemma ConnectService_false service w w' :
  ConnectService T service w = (false, w') → ∃ msg, w' = qWarning msg w.
Proof.
  unfold ConnectService. destruct (IsServiceRegistered_Traits T w); cbn [negb].
  - destruct (qobject_cast_access service w) as [casted|]; [|intros [= <-]; by eexists].
    destruct (get_dbus_interface_ casted w); [intros [= <-]; by eexists|].
    unfold ImportAdaptorFor_ctor. intros [=].
  - intros [= <-]. by eexists.
Qed.

Lemma ConnectService_false_unbound service a w w' :
  ConnectService T service w = (false, w') → unbound a w → unbound a w'.
Proof. intros H. apply ConnectService_false in H as [msg ->]. by apply unbound_heap. Qed.

(** C2: a method call on an access object that has no import adaptor (as
    it is from its construction until a connect succeeds) throws
    [hardbus::Exception] with the message "service not registered"; no
    request is sent and the implementation is not invoked: the world is
    unchanged. *)
Theorem unbound_call_rejected a (m : method T)
    (args : args_t (m_args (method_sig T m))) w :
  unbound a w →
  facade_call T invoke a m args w = Some (Throw "service not registered", w).
Proof. intros [parent Ha]. unfold facade_call. by rewrite Ha. Qed.

(** On a bound access object the generated [TAG::WaitAndConnectService]
    prints the double-connect warning whenever its wait returns. *)
Lemma TAG_WaitAndConnectService_bound a p (evs : list Event) w b w' :
  get_dbus_interface_ a w = Some p →
  TAG_WaitAndConnectService T (Some a) evs w = Some (b, w') →
  b = false ∧ heap w' = heap w ∧ ∃ w1, w' = qWarning (WarnCantReconnect svc) w1.
Proof.
  intros Hb. unfold TAG_WaitAndConnectService.
  destruct (WaitForServiceRegistration T svc evs w) as [[[b0 w0] rest]|] eqn:Hwait; [|done].
  apply WaitForServiceRegistration_heap in Hwait.
  assert (Hh : heap (apply_events T rest w0) = heap w)
    by (by rewrite apply_events_heap).
  apply get_dbus_interface_Some in Hb as [parent Ha].
  unfold qobject_cast_access, get_dbus_interface_. rewrite Hh, Ha.
  cbn beta iota. rewrite Ha.
  intros [= <- <-]. split; [done|]. split; [done|]. by eexists.
Qed.

(** C6: when the service name has no owner, [ConnectService] returns
    false and prints the not-registered warning; nothing else changes, so
    an unbound access object stays unbound and no import adaptor is
    constructed; a later [ConnectService] on it, once the name is
    registered, succeeds. *)
Theorem connect_not_registered (service : option addr) w :
  IsServiceRegistered_Traits T w = false →
  let w' := qWarning (WarnNotRegistered svc) w in
  ConnectService T service w = (false, w')
  ∧ heap w' = heap w
  ∧ (∀ a, unbound a w → unbound a w')
  ∧ (∀ a (evs : list Event),
       unbound a w →
       IsServiceRegistered_Traits T (apply_events T evs w') = true →
       fst (ConnectService T (Some a) (apply_events T evs w')) = true).
Proof.
  intros Hreg w'. split; [by apply ConnectService_not_registered|].
  split; [done|]. split; [intros a Ha; by eapply unbound_heap|].
  intros a evs Ha Hreg'.
  assert (Hu : unbound a (apply_events T evs w'))
    by (eapply unbound_heap; [|exact Ha]; by rewrite apply_events_heap).
  destruct (ConnectService_unbound a _ Hreg' Hu) as (parent & _ & ->). done.
Qed.

(** ** Call marshalling *)

(** The export slot run on the strings the access object produced: the
    typed function gets the original arguments, and the reply decodes to
    what it returned. *)
Lemma marshalling_round_trip (ts : list ArgType) (out : option ArgType)
    (f : args_t ts → State → ret_t out * State) (args : args_t ts) (st : State) :
  lawful_args ts → lawful_out out →
  let str_args := pack_map ToProxyConverter.to_QString ts (ToProxy_pack ts args) in
  snd (ProxyCallHelper1 ts out f str_args st) = snd (f args st)
  ∧ ReturnValueOrVoid out
      (Return (CreaeteFromReturnValue_From
                 (QDBusReply_value
                    (Some (ToProxyConverter.to_QString
                             (fst (ProxyCallHelper1 ts out f str_args st)))))))
    = Return (fst (f args st)).
Proof.
  intros Hargs Hout str_args.
  unfold ProxyCallHelper1, ProxyCallHelper. subst str_args.
  rewrite pack_round_trip by done.
  destruct (f args st) as [r st']. cbn [fst snd]. split; [done|].
  destruct out as [t|]; cbn.
  - f_equal. apply Hout.
  - by destruct r.
Qed.

Lemma is_exported_adaptor impl w : is_exported T impl w → impl ∈ adaptors w.
Proof.
  intros (_ & _ & Hf & _).
  assert (H : impl ∈ filter (λ x, x = impl) (adaptors w)).
  { rewrite Hf. apply elem_of_cons. by left. }
  by apply list_elem_of_filter in H as [_ H].
Qed.

(** C1: on a world where the service is exported for the implementation
    object [impl] (in state [st]), after a successful [ConnectService] a
    call of a declared method [m] on the access object returns exactly
    what the implementation returns on the given arguments; the
    implementation has run once, on exactly these arguments, and one call
    request went over the bus.  The converters of the parameter types and
    of the return type are assumed to satisfy the round-trip law. *)
Theorem call_marshalling_fidelity a impl (st : State) (m : method T)
    (args : args_t (m_args (method_sig T m))) w w' :
  API_ok T → m ∈ methods T →
  lawful_args (m_args (method_sig T m)) → lawful_out (m_out (method_sig T m)) →
  is_exported T impl w → impls w !! impl = Some st →
  ConnectService T (Some a) w = (true, w') →
  facade_call T invoke a m args w'
  = Some (Return (fst (invoke m args st)),
          set_impls (λ l, <[impl := snd (invoke m args st)]> l)
            (send (ReqCall svc path iface (m_name (method_sig T m))
                     (flatten _ (pack_map ToProxyConverter.to_QString _
                                   (ToProxy_pack _ args))))
               w')).
Proof.
  intros Hapi Hm Hargs Hout Hexp Hst Hconn.
  pose proof (is_exported_adaptor _ _ Hexp) as Had.
  destruct Hexp as (Hname & Hobj & _ & _).
  pose proof Hconn as Hb. apply ConnectService_true_bound in Hb as [_ [[parent Ha] _]].
  apply ConnectService_true in Hconn as (a' & parent' & _ & _ & _ & ->).
  unfold facade_call. rewrite Ha. f_equal.
  unfold AccessFor_FUNC, ProxyCallHelper2, ProxyCallHelper, ImportAdaptorFor_FUNC,
    CallFuncOverDBus, call.
  unfold_world. rewrite Hname, Hobj, Hst.
  rewrite bool_decide_eq_true_2 by done. rewrite String.eqb_refl. cbn [andb].
  rewrite length_flatten, find_method_declared by done.
  rewrite unflatten_flatten.
  unfold ExporAdaptorFor_FUNC.
  pose proof (marshalling_round_trip _ _ (invoke m) args st Hargs Hout) as [Hs Hr].
  cbn zeta in Hs, Hr.
  destruct (ProxyCallHelper1 _ _ (invoke m) _ st) as [r st'] eqn:Hcall.
  cbn [fst snd] in Hs, Hr. subst st'. by rewrite Hr.
Qed.

(** ** Export adaptor construction *)

(** C7: constructing the export adaptor sends one request to register the
    implementation object at the service path and, when that succeeded,
    one request to register the service name.  When both succeed the
    object is registered at the path, the host owns the name and the
    adaptor lives.  When the first fails the constructor throws at once
    and the name is not requested; when the second fails it throws as
    well.  No request is sent a second time. *)
Theorem export_construction impl w :
  let r := fst (ExporAdaptorFor_ctor T impl w) in
  let w' := snd (ExporAdaptorFor_ctor T impl w) in
  (objects w !! path = None → names w !! svc ≠ Some OtherApp →
     r = Return tt
     ∧ objects w' !! path = Some impl
     ∧ names w' !! svc = Some HostConn
     ∧ adaptors w' = adaptors w ++ [impl]
     ∧ requests w' = requests w ++ [ReqRegisterObject path impl; ReqRegisterService svc])
  ∧ (objects w !! path ≠ None →
     r = Throw ("Cannot register object at path" +:+ path)
     ∧ objects w' = objects w ∧ names w' = names w ∧ adaptors w' = adaptors w
     ∧ requests w' = requests w ++ [ReqRegisterObject path impl])
  ∧ (objects w !! path = None → names w !! svc = Some OtherApp →
     r = Throw ("Cannot register service" +:+ path)
     ∧ names w' = names w ∧ adaptors w' = adaptors w
     ∧ requests w' = requests w ++ [ReqRegisterObject path impl; ReqRegisterService svc]).
Proof.
  unfold ExporAdaptorFor_ctor, ExportAdaptor, registerObject, registerService.
  unfold_world.
  destruct (objects w !! path) as [o|] eqn:Hobj; cbn [negb].
  - by repeat split.
  - unfold_world.
    destruct (names w !! svc) as [[]|] eqn:Hname; cbn [negb]; unfold_world.
    + repeat split; try done; intros; unfold_world;
        rewrite <- ?(assoc_L (++)); try done; by rewrite lookup_insert_eq.
    + repeat split; try done; intros; unfold_world;
        rewrite <- ?(assoc_L (++)); try done.
    + repeat split; try done; intros; unfold_world;
        rewrite <- ?(assoc_L (++)); try done; by rewrite lookup_insert_eq.
Qed.

(** C9: when the object registration succeeds and the service name is
    owned by another application, the constructor throws and the object
    stays registered at the path: nothing unregisters it, the only
    requests sent are the two registrations, and no adaptor lives. *)
Theorem export_not_atomic impl w :
  objects w !! path = None → names w !! svc = Some OtherApp →
  let r := fst (ExporAdaptorFor_ctor T impl w) in
  let w' := snd (ExporAdaptorFor_ctor T impl w) in
  r = Throw ("Cannot register service" +:+ path)
  ∧ objects w' = <[path := impl]> (objects w)
  ∧ objects w' !! path = Some impl
  ∧ adaptors w' = adaptors w
  ∧ requests w' = requests w ++ [ReqRegisterObject path impl; ReqRegisterService svc].
Proof.
  intros Hobj Hname.
  unfold ExporAdaptorFor_ctor, ExportAdaptor, registerObject, registerService.
  unfold_world. rewrite Hobj. cbn [negb]. unfold_world. rewrite Hname.
  cbn [negb]. unfold_world.
  repeat split; try done; [by rewrite lookup_insert_eq | by rewrite <- (assoc_L (++))].
Qed.

(** After that, the path is taken: exporting again fails at the object
    registration, whoever owns the name by then. *)
Lemma export_after_failure impl impl' w :
  objects w !! path = None → names w !! svc = Some OtherApp →
  ∀ evs : list Event,
    (∀ service, HostExports service ∉ evs) →
    fst (ExporAdaptorFor_ctor T impl'
           (apply_events T evs (snd (ExporAdaptorFor_ctor T impl w))))
    = Throw ("Cannot register object at path" +:+ path).
Proof.
  intros Hobj Hname evs Hevs.
  assert (Hreg : objects (snd (ExporAdaptorFor_ctor T impl w)) !! path = Some impl).
  { unfold ExporAdaptorFor_ctor, ExportAdaptor, registerObject, registerService.
    unfold_world. rewrite Hobj. cbn [negb]. unfold_world. rewrite Hname.
    cbn [negb]. unfold_world. by rewrite lookup_insert_eq. }
  set (w1 := snd (ExporAdaptorFor_ctor T impl w)) in *. clearbody w1.
  assert (Hkeep : objects (apply_events T evs w1) !! path = Some impl).
  { revert w1 Hreg. induction evs as [|e evs IH]; intros w1 Hreg; [done|].
    cbn. unfold apply_events in IH. apply IH.
    - intros service Hin. apply (Hevs service), elem_of_cons. by right.
    - destruct e as [name|name|service]; cbn.
      + by destruct (names w1 !! name).
      + done.
      + exfalso. apply (Hevs service), elem_of_cons. by left. }
  unfold ExporAdaptorFor_ctor, ExportAdaptor, registerObject. unfold_world.
  by rewrite Hkeep.
Qed.

(** ** Waiting and connecting *)

Lemma WaitForServiceRegistration_now name (evs : list Event) w :
  IsServiceRegistered name w = true →
  WaitForServiceRegistration T name evs w = Some (true, w, evs).
Proof. intros H. unfold WaitForServiceRegistration. by rewrite H. Qed.

Lemma loop_exec_registered name (evs : list Event) w w' rest :
  loop_exec T name evs w = Some (w', rest) → isServiceRegistered name w' = true.
Proof.
  revert w. induction evs as [|e evs IH]; intros w; [done|].
  cbn. destruct (negb _ && _) eqn:Hq.
  - intros [= <- <-]. by apply andb_true_iff in Hq as [_ Hq].
  - apply IH.
Qed.

(** When the wait returns, it returns true and the name has an owner. *)
Lemma WaitForServiceRegistration_returns name (evs : list Event) w b w' rest :
  WaitForServiceRegistration T name evs w = Some (b, w', rest) →
  b = true ∧ IsServiceRegistered name w' = true.
Proof.
  unfold WaitForServiceRegistration.
  destruct (IsServiceRegistered name w) eqn:Hreg.
  - by intros [= <- <- <-].
  - destruct (loop_exec T name evs w) as [[w1 r1]|] eqn:Hloop; [|done].
    intros [= <- <- <-]. split; [done|]. by eapply loop_exec_registered.
Qed.

(** [hardbus::WaitAndConnectService] is the wait followed by
    [ConnectService], run on the world as it is when the query is made. *)
Lemma WaitAndConnectService_composite service (evs : list Event) w :
  WaitAndConnectService T service evs w
  = match WaitForServiceRegistration_Traits T evs w with
    | Some (_, w1, rest) => Some (ConnectService T service (apply_events T rest w1))
    | None => None
    end.
Proof.
  unfold WaitAndConnectService.
  destruct (WaitForServiceRegistration_Traits T evs w) as [[[b w1] rest]|] eqn:Hwait; [|done].
  apply WaitForServiceRegistration_returns in Hwait as [-> _]. done.
Qed.

(** With [hardbus::WaitAndConnectService], a service that is gone again
    when the connect step asks makes the connect step fail with the
    not-registered warning, and the access object stays unbound. *)
Lemma WaitAndConnectService_service_lost a (evs : list Event) w b w1 rest :
  WaitForServiceRegistration_Traits T evs w = Some (b, w1, rest) →
  IsServiceRegistered_Traits T (apply_events T rest w1) = false →
  unbound a w →
  WaitAndConnectService T (Some a) evs w
  = Some (false, qWarning (WarnNotRegistered svc) (apply_events T rest w1))
  ∧ unbound a (qWarning (WarnNotRegistered svc) (apply_events T rest w1)).
Proof.
  intros Hwait Hreg Ha. rewrite WaitAndConnectService_composite, Hwait.
  rewrite ConnectService_not_registered by done. split; [done|].
  eapply unbound_heap; [|exact Ha]. unfold_world.
  rewrite apply_events_heap. symmetry. by eapply WaitForServiceRegistration_heap.
Qed.

(** The generated [TAG::WaitAndConnectService] does not ask the bus again
    after the wait: on an unbound access object it binds and returns true
    whenever the wait returns, whatever has happened to the service. *)
Lemma TAG_WaitAndConnectService_unbound a (evs : list Event) w b w1 rest :
  WaitForServiceRegistration T svc evs w = Some (b, w1, rest) →
  unbound a w →
  ∃ parent,
    heap w !! a = Some (AccessObj None parent)
    ∧ TAG_WaitAndConnectService T (Some a) evs w
      = Some (true,
              set_heap
                (λ h, <[a := AccessObj (Some (length (heap w))) parent]> (h ++ [ImportObj a]))
                (apply_events T rest w1)).
Proof.
  intros Hwait [parent Ha]. exists parent. split; [done|].
  unfold TAG_WaitAndConnectService. rewrite Hwait.
  apply WaitForServiceRegistration_heap in Hwait.
  assert (Hh : heap (apply_events T rest w1) = heap w) by (by rewrite apply_events_heap).
  cbn [qobject_cast_access]. rewrite Hh, Ha. cbn beta iota.
  unfold get_dbus_interface_. rewrite Hh, Ha.
  unfold ImportAdaptorFor_ctor, set_dbus_interface_. unfold_world.
  rewrite Hh, (lookup_app_l_Some _ _ _ _ Ha). done.
Qed.

(** C10: [TAG::CreateAndConnectService] returns exactly when the wait
    inside it returns, and what it returns is the address of the access
    object it has just created, whatever [WaitAndConnectService] answered:
    the answer does not reach the caller. *)
Theorem create_and_connect_returns_facade parent (evs : list Event) w :
  let created := snd (TAG_CreateServiceInterface parent w) in
  (is_Some (TAG_CreateAndConnectService T parent evs w)
   ↔ is_Some (WaitForServiceRegistration T svc evs created))
  ∧ TAG_CreateAndConnectService T parent evs w
    = (λ bw, (length (heap w), snd bw))
        <$> TAG_WaitAndConnectService T (Some (length (heap w))) evs created
  ∧ ∀ service w',
      TAG_CreateAndConnectService T parent evs w = Some (service, w') →
      service = length (heap w)
      ∧ heap w !! service = None
      ∧ ∃ dbus_interface_, heap w' !! service = Some (AccessObj dbus_interface_ parent).
Proof.
  intros created.
  destruct (CreateServiceInterface_unbound parent w) as [_ Hfresh].
  change (unbound (length (heap w)) created) in Hfresh.
  assert (Heq : TAG_CreateAndConnectService T parent evs w
    = (λ bw, (length (heap w), snd bw))
        <$> TAG_WaitAndConnectService T (Some (length (heap w))) evs created).
  { unfold TAG_CreateAndConnectService, TAG_CreateServiceInterface, AccessFor_ctor.
    fold (AccessFor_ctor parent w).
    by destruct (TAG_WaitAndConnectService _ _ _ _) as [[b w']|]. }
  split; [|split; [done|]].
  - rewrite Heq.
    destruct (WaitForServiceRegistration T svc evs created) as [[[b w1] rest]|] eqn:Hwait.
    + destruct (TAG_WaitAndConnectService_unbound _ _ _ _ _ _ Hwait Hfresh)
        as (p & _ & ->). cbn. split; by eexists.
    + unfold TAG_WaitAndConnectService. rewrite Hwait. cbn.
      split; intros [x Hx]; done.
  - intros service w'. rewrite Heq.
    destruct (WaitForServiceRegistration T svc evs created) as [[[b w1] rest]|] eqn:Hwait.
    + destruct (TAG_WaitAndConnectService_unbound _ _ _ _ _ _ Hwait Hfresh)
        as (p & Hp & ->). cbn. intros [= <- <-].
      split; [done|]. split; [by apply lookup_ge_None_2|].
      assert (Hp' : p = parent).
      { unfold created, TAG_CreateServiceInterface, AccessFor_ctor in Hp.
        unfold_world. rewrite list_lookup_middle in Hp by done. congruence. }
      subst p. eexists. unfold_world. apply list_lookup_insert_eq.
      apply WaitForServiceRegistration_heap in Hwait.
      rewrite length_app, apply_events_heap, Hwait.
      unfold created, TAG_CreateServiceInterface, AccessFor_ctor. unfold_world.
      rewrite length_app. cbn. lia.
    + unfold TAG_WaitAndConnectService. by rewrite Hwait.
Qed.

(** ** Steps of the world and what they preserve *)

Lemma heap_ok_ext w1 w2 : heap w1 = heap w2 → heap_ok w1 → heap_ok w2.
Proof.
  unfold heap_ok, get_dbus_interface_. intros Hh Hok i service.
  rewrite <- Hh. apply Hok.
Qed.

Lemma ConnectService_heap_step service w b w' :
  ConnectService T service w = (b, w') → heap_step (heap w) (heap w').
Proof.
  intros Hconn. destruct b.
  - apply ConnectService_true in Hconn as (a & parent & _ & _ & Ha & ->).
    right; left. exists a, parent. by unfold_world.
  - apply ConnectService_false in Hconn as [msg ->]. by left.
Qed.

Lemma TAG_WaitAndConnectService_heap_step service (evs : list Event) w b w' :
  TAG_WaitAndConnectService T service evs w = Some (b, w') → heap_step (heap w) (heap w').
Proof.
  unfold TAG_WaitAndConnectService.
  destruct (WaitForServiceRegistration T svc evs w) as [[[b0 w0] rest]|] eqn:Hwait; [|done].
  apply WaitForServiceRegistration_heap in Hwait.
  assert (Hh : heap (apply_events T rest w0) = heap w) by (by rewrite apply_events_heap).
  destruct service as [a|]; cbn [qobject_cast_access];
    [|intros [= <- <-]; left; by unfold_world].
  rewrite Hh. destruct (heap w !! a) as [[d parent| |]|] eqn:Ha;
    try (intros [= <- <-]; left; by unfold_world).
  unfold get_dbus_interface_. rewrite Hh, Ha.
  destruct d as [d|]; [intros [= <- <-]; left; by unfold_world|].
  unfold ImportAdaptorFor_ctor, set_dbus_interface_. unfold_world.
  rewrite Hh, (lookup_app_l_Some _ _ _ _ Ha). intros [= <- <-].
  right; left. exists a, parent. unfold_world. by rewrite Hh.
Qed.

Lemma facade_call_heap service (m : method T)
    (args : args_t (m_args (method_sig T m))) w r w' :
  facade_call T invoke service m args w = Some (r, w') → heap w' = heap w.
Proof.
  unfold facade_call. destruct (heap w !! service) as [[d parent| |]|]; try done.
  unfold AccessFor_FUNC, ProxyCallHelper2, ProxyCallHelper, ImportAdaptorFor_FUNC,
    CallFuncOverDBus, call.
  destruct d as [d|]; [|by intros [= <- <-]].
  unfold_world.
  repeat case_match; intros; simplify_eq; done.
Qed.

Lemma step_heap w w' : step T invoke w w' → heap_step (heap w) (heap w').
Proof.
  intros Hstep. destruct Hstep as [e w|parent w|service w|service evs w b w' H
                                  |service evs w b w' H|service m args w r w' H].
  - left. apply apply_event_heap.
  - right; right. by exists parent.
  - eapply ConnectService_heap_step. apply surjective_pairing.
  - rewrite WaitAndConnectService_composite in H.
    destruct (WaitForServiceRegistration_Traits T evs w) as [[[b0 w0] rest]|] eqn:Hwait;
      [|done].
    apply WaitForServiceRegistration_heap in Hwait.
    injection H as H. apply ConnectService_heap_step in H.
    by rewrite apply_events_heap, Hwait in H.
  - by eapply TAG_WaitAndConnectService_heap_step.
  - left. by eapply facade_call_heap.
Qed.

(** Every import adaptor stays paired with its access object. *)
Lemma heap_ok_step w w' : heap_ok w → heap_step (heap w) (heap w') → heap_ok w'.
Proof.
  intros Hok [Hh|[(a & parent & Ha & Hh)|[parent Hh]]].
  - by eapply heap_ok_ext.
  - pose proof (lookup_lt_Some _ _ _ Ha) as Hlt.
    unfold heap_ok, get_dbus_interface_ in *. rewrite Hh. intros i service' Hi.
    destruct (decide (i = a)) as [->|Hia].
    { rewrite list_lookup_insert_eq in Hi by (rewrite length_app; lia). done. }
    rewrite list_lookup_insert_ne in Hi by done.
    destruct (decide (service' = a)) as [->|Hsa].
    + rewrite list_lookup_insert_eq by (rewrite length_app; lia).
      apply lookup_app_Some in Hi as [Hi|[Hge Hi]].
      * specialize (Hok _ _ Hi). by rewrite Ha in Hok.
      * apply list_lookup_singleton_Some in Hi as [Hi _]. f_equal. lia.
    + rewrite list_lookup_insert_ne by done.
      apply lookup_app_Some in Hi as [Hi|[Hge Hi]].
      * specialize (Hok _ _ Hi).
        destruct (heap w !! service') as [o|] eqn:Hs; [|done].
        by rewrite (lookup_app_l_Some _ _ _ _ Hs).
      * apply list_lookup_singleton_Some in Hi as [_ [= Hi]]. congruence.
  - unfold heap_ok, get_dbus_interface_ in *. rewrite Hh. intros i service Hi.
    apply lookup_app_Some in Hi as [Hi|[Hge Hi]].
    + specialize (Hok _ _ Hi).
      destruct (heap w !! service) as [o|] eqn:Hs; [|done].
      by rewrite (lookup_app_l_Some _ _ _ _ Hs).
    + by apply list_lookup_singleton_Some in Hi as [_ [=]].
Qed.

(** A bound access object stays bound, to the same import adaptor. *)
Lemma bound_step a p w w' : bound a p w → heap_step (heap w) (heap w') → bound a p w'.
Proof.
  intros Hb [Hh|[(a' & parent' & Ha' & Hh)|[parent' Hh]]].
  - by eapply bound_heap.
  - destruct Hb as [[parent Ha] Hp]. unfold bound. rewrite Hh.
    assert (a ≠ a') by congruence. assert (p ≠ a') by congruence.
    rewrite !list_lookup_insert_ne by done.
    rewrite (lookup_app_l_Some _ _ _ _ Ha), (lookup_app_l_Some _ _ _ _ Hp). eauto.
  - destruct Hb as [[parent Ha] Hp]. unfold bound. rewrite Hh.
    rewrite (lookup_app_l_Some _ _ _ _ Ha), (lookup_app_l_Some _ _ _ _ Hp). eauto.
Qed.

Lemma heap_ok_steps w w' : heap_ok w → rtc (step T invoke) w w' → heap_ok w'.
Proof.
  intros Hok Hsteps. induction Hsteps as [w|w w1 w2 Hstep _ IH]; [done|].
  apply IH. eapply heap_ok_step; [done|]. by apply step_heap.
Qed.

Lemma bound_steps a p w w' : bound a p w → rtc (step T invoke) w w' → bound a p w'.
Proof.
  intros Hb Hsteps. induction Hsteps as [w|w w1 w2 Hstep _ IH]; [done|].
  apply IH. eapply bound_step; [done|]. by apply step_heap.
Qed.

(** An access object has at most one import adaptor. *)
Lemma heap_ok_single_import a p w i :
  heap_ok w → bound a p w → heap w !! i = Some (ImportObj a) → i = p.
Proof.
  intros Hok [[parent Ha] _] Hi. specialize (Hok _ _ Hi).
  unfold get_dbus_interface_ in Hok. rewrite Ha in Hok. congruence.
Qed.

(** C3 as amended: once [ConnectService] has succeeded on an access
    object, whatever happens afterwards (other processes acting on the
    bus, the client creating, connecting and calling), a further
    [ConnectService] on it returns false and only prints a warning: the
    double-connect warning when the service is registered at that moment,
    the not-registered warning otherwise.  The access object still points
    to the import adaptor of the first connect, calls go through it, and
    no other import adaptor for it exists. *)
Theorem single_connect a w0 w1 w :
  ConnectService T (Some a) w0 = (true, w1) →
  rtc (step T invoke) w1 w →
  let w' := qWarning (if IsServiceRegistered_Traits T w
                      then WarnCantReconnect svc else WarnNotRegistered svc) w in
  ConnectService T (Some a) w = (false, w')
  ∧ heap w' = heap w
  ∧ bound a (length (heap w0)) w'
  ∧ (∀ (m : method T) (args : args_t (m_args (method_sig T m))),
      facade_call T invoke a m args w'
      = Some (AccessFor_FUNC T invoke m (Some (length (heap w0))) args w'))
  ∧ (heap_ok w0 → ∀ i, heap w' !! i = Some (ImportObj a) → i = length (heap w0)).
Proof.
  intros Hconn Hsteps w'.
  pose proof (ConnectService_heap_step _ _ _ _ Hconn) as Hstep1.
  apply ConnectService_true_bound in Hconn as [_ Hbound].
  pose proof (bound_steps _ _ _ _ Hbound Hsteps) as Hb.
  assert (Hb' : bound a (length (heap w0)) w') by (by eapply bound_heap; [|exact Hb]).
  split; [|split; [done|split; [done|split]]].
  - apply (ConnectService_bound a (length (heap w0))).
    apply get_dbus_interface_Some. apply Hb.
  - intros m args. unfold facade_call. by destruct Hb' as [[parent ->] _].
  - intros Hok0 i Hi. eapply (heap_ok_single_import a _ w'); [|done|done].
    eapply heap_ok_ext with w; [done|].
    eapply heap_ok_steps; [|exact Hsteps]. by eapply heap_ok_step.
Qed.

(** ** Signal relay *)

(** [ConnectService] keeps every import adaptor paired with its access
    object. *)
Lemma ConnectService_heap_ok service w b w' :
  heap_ok w → ConnectService T service w = (b, w') → heap_ok w'.
Proof.
  intros Hok Hconn. eapply heap_ok_step; [done|]. by eapply ConnectService_heap_step.
Qed.

Lemma CreateServiceInterface_heap_ok parent w :
  heap_ok w → heap_ok (snd (CreateServiceInterface parent w)).
Proof.
  intros Hok. eapply heap_ok_step; [done|]. right; right. by exists parent.
Qed.

(** A declared signal fired on the exported implementation object, when
    no connector of a destroyed adaptor is attached to it, goes onto the
    bus exactly once. *)
Lemma fire_exported impl w (e : Emission T) :
  is_exported T impl w → impl ∉ dangling w →
  em_obj e = impl → em_signal e ∈ signals T →
  fire T w e
  = Some [ {| bs_path := path; bs_interface := iface;
              bs_member := s_name (signal_sig T (em_signal e));
              bs_args := flatten _ (pack_map ToProxyConverter.to_QString _
                                      (ToProxy_pack _ (em_args e))) |} ].
Proof.
  intros (_ & Hobj & Hfilter & _) Hdang Hobj_e Hs.
  unfold fire. destruct (find_signal_declared _ Hs) as (s' & -> & _).
  rewrite Hobj_e. rewrite bool_decide_eq_false_2 by done. f_equal.
  rewrite <- Hobj_e.
  rewrite (flat_map_if_filter
    (λ interface_, ExporAdaptorFor_connectror T (em_signal e) interface_ w (em_args e))
    (λ x, x = em_obj e)).
  rewrite Hobj_e, Hfilter. cbn [flat_map]. rewrite app_nil_r.
  unfold ExporAdaptorFor_connectror, MakeProxyConnector2, MakeProxyConnector,
    ExporAdaptorFor_SIGNAL.
  rewrite Hobj. by rewrite bool_decide_eq_true_2.
Qed.

(** What an import adaptor emits is emitted on its access object. *)
Lemma ImportAdaptorFor_SIGNAL_obj i w bs (e : Emission T) :
  e ∈ ImportAdaptorFor_SIGNAL T i w bs → em_obj e = i.
Proof.
  unfold ImportAdaptorFor_SIGNAL.
  destruct (names w !! svc) as [[]|]; try (intros H; by apply elem_of_nil in H).
  destruct (_ && _); try (intros H; by apply elem_of_nil in H).
  destruct (find_signal T _ _) as [s|]; try (intros H; by apply elem_of_nil in H).
  destruct (unflatten _ _) as [strs|]; try (intros H; by apply elem_of_nil in H).
  intros H. apply list_elem_of_singleton in H. by subst e.
Qed.

(** Of a bus signal, application code connected to the access object [a]
    sees what the one import adaptor of [a] emits. *)
Lemma deliver_observed a p w bs :
  heap_ok w → bound a p w →
  observed a (deliver T w bs) = ImportAdaptorFor_SIGNAL T a w bs.
Proof.
  intros Hok [[parent Ha] Hp]. unfold observed, deliver.
  rewrite filter_flat_map.
  rewrite (flat_map_single _ (heap w) p (ImportObj a) Hp).
  - apply filter_all. intros e He. by eapply ImportAdaptorFor_SIGNAL_obj.
  - intros j y Hj Hne. destruct y as [d q|i|]; [done| |done].
    apply filter_none. intros e He Hea.
    apply ImportAdaptorFor_SIGNAL_obj in He. subst i a.
    specialize (Hok _ _ Hj). unfold get_dbus_interface_ in Hok.
    rewrite Ha in Hok. congruence.
Qed.


Lemma import_relayed_exact a w (s : signal T) (args : args_t (s_args (signal_sig T s))) :
  API_ok T → lawful_args (s_args (signal_sig T s)) →
  names w !! svc = Some HostConn → s ∈ signals T →
  ImportAdaptorFor_SIGNAL T a w
    {| bs_path := path; bs_interface := iface;
       bs_member := s_name (signal_sig T s);
       bs_args := flatten _ (pack_map ToProxyConverter.to_QString _ (ToProxy_pack _ args)) |}
  = [ {| em_obj := a; em_signal := s; em_args := args |} ].
Proof.
  intros Hapi Hlaw Hname Hs. unfold ImportAdaptorFor_SIGNAL. rewrite Hname.
  cbn [bs_path bs_interface bs_member bs_args].
  rewrite !String.eqb_refl. cbn [andb]. rewrite length_flatten.
  rewrite find_signal_unique, unflatten_flatten by done.
  unfold ImportAdaptorFor_connectror, MakeProxyConnector1, MakeProxyConnector.
  by rewrite pack_round_trip.
Qed.

Lemma ConnectService_is_exported service impl w b w' :
  ConnectService T service w = (b, w') → is_exported T impl w → is_exported T impl w'.
Proof.
  intros Hconn Hexp. destruct b.
  - by apply ConnectService_true in Hconn as (a & parent & _ & _ & _ & ->).
  - by apply ConnectService_false in Hconn as [msg ->].
Qed.

Lemma ConnectService_dangling service w :
  dangling (snd (ConnectService T service w)) = dangling w.
Proof.
  destruct (ConnectService T service w) as [[] w'] eqn:Hconn.
  - by apply ConnectService_true in Hconn as (a & parent & _ & _ & _ & ->).
  - by apply ConnectService_false in Hconn as [msg ->].
Qed.

Lemma relay_observed a p impl w (e : Emission T) :
  heap_ok w → bound a p w → is_exported T impl w → impl ∉ dangling w →
  em_obj e = impl → em_signal e ∈ signals T →
  ∃ out, relay T w e = Some out
         ∧ observed a out
           = ImportAdaptorFor_SIGNAL T a w
               {| bs_path := path; bs_interface := iface;
                  bs_member := s_name (signal_sig T (em_signal e));
                  bs_args := flatten _ (pack_map ToProxyConverter.to_QString _
                                          (ToProxy_pack _ (em_args e))) |}.
Proof.
  intros Hok Hb Hexp Hdang Hobj Hs. unfold relay.
  rewrite (fire_exported impl) by done. eexists. split; [done|].
  cbn [flat_map]. rewrite app_nil_r.
  by eapply deliver_observed.
Qed.


(** With lawful converters and an interface that compiles, the emissions
    seen on [a] are the fired ones, arguments included. *)
Lemma signal_relay_exact a impl (es : list (Emission T)) w w' :
  API_ok T → heap_ok w → is_exported T impl w → impl ∉ dangling w →
  ConnectService T (Some a) w = (true, w') →
  Forall (λ e, em_obj e = impl ∧ em_signal e ∈ signals T
               ∧ lawful_args (s_args (signal_sig T (em_signal e)))) es →
  ∃ out,
    relay_all T w' es = Some out
    ∧ observed a out
      = (λ e, {| em_obj := a; em_signal := em_signal e; em_args := em_args e |}) <$> es.
Proof.
  intros Hapi Hok Hexp Hdang Hconn Hes.
  pose proof (ConnectService_heap_ok _ _ _ _ Hok Hconn) as Hok'.
  pose proof (ConnectService_is_exported _ _ _ _ _ Hconn Hexp) as Hexp'.
  assert (Hdang' : impl ∉ dangling w').
  { pose proof (ConnectService_dangling (Some a) w) as Hd.
    rewrite Hconn in Hd. cbn [snd] in Hd. by rewrite Hd. }
  apply ConnectService_true_bound in Hconn as [_ Hb].
  induction Hes as [|e es (Hobj & Hs & Hlaw) _ IH]; [by exists []|].
  destruct IH as (outs & Hall & Hexact).
  destruct (relay_observed a _ impl w' e Hok' Hb Hexp' Hdang' Hobj Hs)
    as (out & Hrelay & Hobs).
  exists (out ++ outs). cbn [relay_all]. rewrite Hrelay, Hall. split; [done|].
  unfold observed in *. rewrite filter_app, Hexact, Hobs.
  destruct Hexp' as [Hname _].
  by rewrite import_relayed_exact.
Qed.

(** Exporting from a world that satisfies the host invariant keeps it, and
    a successful export makes the service exported. *)
Lemma RegisterService_host_ok impl w :
  host_ok T w → host_ok T (snd (RegisterService T impl w)).
Proof.
  unfold host_ok, RegisterService, ExporAdaptorFor_ctor, ExportAdaptor,
    registerObject, registerService. unfold_world.
  destruct (objects w !! path) as [o|] eqn:Hobj; cbn [negb]; unfold_world.
  - by rewrite Hobj.
  - intros Hw.
    destruct (names w !! svc) as [[]|]; cbn [negb]; unfold_world;
      rewrite lookup_insert_eq, ?length_app, Hw; cbn; lia.
Qed.

Lemma RegisterService_is_exported impl w w' :
  host_ok T w → is_Some (impls w !! impl) →
  RegisterService T impl w = (Return tt, w') → is_exported T impl w'.
Proof.
  unfold host_ok, is_exported, RegisterService, ExporAdaptorFor_ctor, ExportAdaptor,
    registerObject, registerService. unfold_world.
  destruct (objects w !! path) as [o|] eqn:Hobj; cbn [negb]; unfold_world; [done|].
  intros Hw Himpl.
  destruct (names w !! svc) as [[]|]; cbn [negb]; unfold_world; intros [= <-];
    unfold_world; rewrite !lookup_insert_eq, Hw; cbn;
    by rewrite decide_True by done.
Qed.

End Properties.

(** ** The properties on the demo service *)

Lemma demo_API_ok : API_ok Demo.traits.
Proof. split; cbn; compute_done. Qed.

Lemma demo_start_host_ok : host_ok Demo.traits Demo.start.
Proof. reflexivity. Qed.

Lemma demo_created_exported : is_exported Demo.traits 0 Demo.created.
Proof. repeat split; try reflexivity. by eexists. Qed.

Lemma demo_created_heap_ok : heap_ok Demo.created.
Proof. intros [|[|i]] service H; discriminate H. Qed.

Lemma demo_connect : ConnectService Demo.traits (Some 0) Demo.created = (true, Demo.connected).
Proof. reflexivity. Qed.

Lemma call_marshalling_fidelity_witness :
  facade_call Demo.traits Demo.demo_invoke 0 Demo.check (42%Z, ("x", tt)) Demo.connected
  = Some (Return true,
          set_impls (λ l, <[0 := [(42%Z, "x")]]> l)
            (send (ReqCall "org.demo.Service" "/demo" "org.demo.Checker" "check" ["42"; "x"])
               Demo.connected)).
Proof.
  apply (call_marshalling_fidelity Demo.traits Demo.demo_invoke 0 0 [] Demo.check
           (42%Z, ("x", tt)) Demo.created Demo.connected).
  - exact demo_API_ok.
  - apply elem_of_cons. by left.
  - exact (conj int_converter_lawful (conj QString_converter_lawful I)).
  - exact bool_converter_lawful.
  - exact demo_created_exported.
  - reflexivity.
  - exact demo_connect.
Defined.

Lemma unbound_call_rejected_witness :
  facade_call Demo.traits Demo.demo_invoke 0 Demo.check (42%Z, ("x", tt)) Demo.waiting
  = Some (Throw "service not registered", Demo.waiting).
Proof.
  apply (unbound_call_rejected Demo.traits Demo.demo_invoke 0 Demo.check
           (42%Z, ("x", tt)) Demo.waiting).
  exists None. reflexivity.
Defined.

(** C3 as stated fails: the access object of [Demo.connected] was
    connected successfully; after the service name is given up, a further
    [ConnectService] on it prints the not-registered warning, not the
    double-connect warning. *)
Lemma single_connect_counterexample :
  ConnectService Demo.traits (Some 0) Demo.created = (true, Demo.connected)
  ∧ ConnectService Demo.traits (Some 0) Demo.released
    = (false, qWarning (WarnNotRegistered "org.demo.Service") Demo.released)
  ∧ ConnectService Demo.traits (Some 0) Demo.released
    ≠ (false, qWarning (WarnCantReconnect "org.demo.Service") Demo.released).
Proof.
  split; [reflexivity|]. split; [reflexivity|].
  intros H. apply (f_equal (λ x, log (snd x))) in H. vm_compute in H. discriminate H.
Qed.

Lemma single_connect_witness :
  ConnectService Demo.traits (Some 0) Demo.released
  = (false, qWarning (WarnNotRegistered "org.demo.Service") Demo.released)
  ∧ bound 0 1 (qWarning (WarnNotRegistered "org.demo.Service") Demo.released)
  ∧ ∀ i, heap (qWarning (WarnNotRegistered "org.demo.Service") Demo.released) !! i
         = Some (ImportObj 0) → i = 1.
Proof.
  pose proof (single_connect Demo.traits Demo.demo_invoke 0 Demo.created Demo.connected
                Demo.released demo_connect
                (rtc_once _ _ (step_event Demo.traits Demo.demo_invoke
                                 (NameReleased "org.demo.Service") Demo.connected))) as H.
  cbn zeta in H. destruct H as (H1 & _ & H2 & _ & H3).
  split; [exact H1|]. split; [exact H2|]. exact (H3 demo_created_heap_ok).
Defined.

(** C5 on the generated [TAG::WaitAndConnectService]: the host exports the
    service, the wait returns, the service name is given up before the
    connect step.  The generated function binds the access object and
    returns true; [hardbus::WaitAndConnectService] on the same input
    returns false with the not-registered warning and leaves the access
    object unbound. *)
Theorem TAG_WaitAndConnectService_binds_lost_service :
  let evs := [HostExports 0; NameReleased "org.demo.Service"] in
  (∃ w1, WaitForServiceRegistration Demo.traits "org.demo.Service" evs Demo.waiting
         = Some (true, w1, [NameReleased "org.demo.Service"]))
  ∧ (∃ w', TAG_WaitAndConnectService Demo.traits (Some 0) evs Demo.waiting = Some (true, w')
           ∧ IsServiceRegistered_Traits Demo.traits w' = false
           ∧ bound 0 1 w')
  ∧ (∃ w', WaitAndConnectService Demo.traits (Some 0) evs Demo.waiting = Some (false, w')
           ∧ IsServiceRegistered_Traits Demo.traits w' = false
           ∧ log w' = [WarnNotRegistered "org.demo.Service"]
           ∧ unbound 0 w').
Proof.
  cbn zeta. split; [|split].
  - eexists. vm_compute. reflexivity.
  - eexists. split; [vm_compute; reflexivity|]. split; [reflexivity|].
    split; [by exists None | reflexivity].
  - eexists. split; [vm_compute; reflexivity|]. split; [reflexivity|].
    split; [reflexivity | by exists None].
Qed.

Lemma connect_not_registered_witness :
  ConnectService Demo.traits (Some 0) Demo.waiting
  = (false, qWarning (WarnNotRegistered "org.demo.Service") Demo.waiting)
  ∧ unbound 0 (qWarning (WarnNotRegistered "org.demo.Service") Demo.waiting)
  ∧ fst (ConnectService Demo.traits (Some 0)
           (apply_events Demo.traits [HostExports 0]
              (qWarning (WarnNotRegistered "org.demo.Service") Demo.waiting))) = true.
Proof.
  pose proof (connect_not_registered Demo.traits (Some 0) Demo.waiting eq_refl) as H.
  cbn zeta in H. destruct H as (H1 & _ & H2 & H3).
  split; [exact H1|]. split.
  - apply H2. exists None. reflexivity.
  - apply H3; [exists None|]; reflexivity.
Defined.

Lemma export_not_atomic_witness :
  fst (ExporAdaptorFor_ctor Demo.traits 0 Demo.taken) = Throw "Cannot register service/demo"
  ∧ objects (snd (ExporAdaptorFor_ctor Demo.traits 0 Demo.taken)) !! "/demo" = Some 0.
Proof.
  pose proof (export_not_atomic Demo.traits 0 Demo.taken eq_refl eq_refl) as H.
  cbn zeta in H. destruct H as (H1 & _ & H2 & _). split; [exact H1 | exact H2].
Defined.


(** * Further properties of the connection functions, calls and signals *)

Section Further.

Context (T : Traits) {State : Type}.
Context (invoke : ∀ m : method T,
  args_t (m_args (method_sig T m)) → State → ret_t (m_out (method_sig T m)) * State).

Implicit Types w : World (State := State).
Implicit Types a p impl : addr.

Local Abbreviation svc := (dbus_service_name T).
Local Abbreviation path := (dbus_service_path T).
Local Abbreviation iface := (dbus_service_interface T).

Ltac unfold_world :=
  cbn [names objects requests impls adaptors dangling heap log
       set_names set_objects set_requests set_impls set_adaptors set_dangling
       set_heap set_log
       qWarning send fst snd] in *.

(** ** Waiting for the service *)

Lemma apply_events_cons e (evs : list Event) w :
  apply_events T (e :: evs) w = apply_events T evs (apply_event T e w).
Proof. reflexivity. Qed.

Lemma apply_events_app (evs1 evs2 : list Event) w :
  apply_events T (evs1 ++ evs2) w = apply_events T evs2 (apply_events T evs1 w).
Proof. unfold apply_events. apply foldl_app. Qed.

(** The event loop, started while the name has no owner, quits on the
    first event after which it has one. *)
Lemma loop_exec_spec name (evs : list Event) w :
  isServiceRegistered name w = false →
  match loop_exec T name evs w with
  | Some (w', rest) =>
      ∃ k, k < length evs
           ∧ w' = apply_events T (take (S k) evs) w
           ∧ rest = drop (S k) evs
           ∧ isServiceRegistered name w' = true
           ∧ ∀ j, j ≤ k → isServiceRegistered name (apply_events T (take j evs) w) = false
  | None =>
      ∀ j, j ≤ length evs → isServiceRegistered name (apply_events T (take j evs) w) = false
  end.
Proof.
  revert w. induction evs as [|e evs IH]; intros w Hreg.
  - cbn. intros j Hj. by rewrite take_nil.
  - cbn [loop_exec]. rewrite Hreg. cbn [negb andb].
    destruct (isServiceRegistered name (apply_event T e w)) eqn:He.
    + exists 0. cbn. split; [lia|]. split; [done|]. split; [by rewrite drop_0|].
      split; [done|]. intros j Hj. by replace j with 0 by lia.
    + specialize (IH _ He).
      destruct (loop_exec T name evs (apply_event T e w)) as [[w' rest]|].
      * destruct IH as (k & Hk & -> & -> & Hw' & Hbefore).
        exists (S k). cbn [length]. split; [lia|]. split; [done|]. split; [done|].
        split; [done|]. intros [|j] Hj; [done|].
        cbn [take]. rewrite apply_events_cons. apply Hbefore. lia.
      * intros [|j] Hj; [done|].
        cbn [take]. rewrite apply_events_cons. apply IH. cbn in Hj. lia.
Qed.

(** X1: when [WaitForServiceRegistration] returns, it returns true, in the
    world as it is right after the first moment at which the name has an
    owner: the events up to that moment have happened, the others are
    still to come, and at no earlier moment was the name registered. *)
Theorem wait_returns_at_first_registration name (evs : list Event) w b w' rest :
  WaitForServiceRegistration T name evs w = Some (b, w', rest) →
  b = true
  ∧ ∃ k, k ≤ length evs
         ∧ w' = apply_events T (take k evs) w
         ∧ rest = drop k evs
         ∧ IsServiceRegistered name w' = true
         ∧ ∀ j, j < k → IsServiceRegistered name (apply_events T (take j evs) w) = false.
Proof.
  unfold WaitForServiceRegistration, IsServiceRegistered.
  destruct (isServiceRegistered name w) eqn:Hreg.
  - intros [= <- <- <-]. split; [done|]. exists 0.
    split; [lia|]. split; [by rewrite take_0|]. split; [by rewrite drop_0|].
    split; [done|]. intros j Hj. lia.
  - pose proof (loop_exec_spec name evs w Hreg) as Hloop.
    destruct (loop_exec T name evs w) as [[w1 r1]|]; [|done].
    intros [= <- <- <-]. split; [done|].
    destruct Hloop as (k & Hk & -> & -> & Hw' & Hbefore).
    exists (S k). split; [lia|]. split; [done|]. split; [done|]. split; [done|].
    intros j Hj. apply Hbefore. lia.
Qed.

(** X2: [WaitForServiceRegistration] returns exactly when the name has an
    owner at the start or after one of the events; without such a moment
    it never returns, however long the list of events is (there is no
    timeout). *)
Theorem wait_returns_iff name (evs : list Event) w :
  is_Some (WaitForServiceRegistration T name evs w)
  ↔ ∃ j, j ≤ length evs
         ∧ IsServiceRegistered name (apply_events T (take j evs) w) = true.
Proof.
  unfold WaitForServiceRegistration, IsServiceRegistered.
  destruct (isServiceRegistered name w) eqn:Hreg.
  - split; [|by eexists]. intros _. exists 0. split; [lia|]. by rewrite take_0.
  - pose proof (loop_exec_spec name evs w Hreg) as Hloop.
    destruct (loop_exec T name evs w) as [[w1 r1]|].
    + split; [|by eexists]. intros _.
      destruct Hloop as (k & Hk & -> & _ & Hw' & _). exists (S k). split; [lia|done].
    + split; [by intros [x Hx]|]. intros (j & Hj & Hreg'). rewrite Hloop in Hreg'; done.
Qed.

(** ** Connecting *)

Lemma heap_bind_bound a (h : list QObj) w w' :
  heap w = h → heap_bind a h (heap w') → bound a (length (heap w)) w'.
Proof.
  intros <- (parent & Ha & Hh). pose proof (lookup_lt_Some _ _ _ Ha) as Hlt.
  unfold bound. rewrite Hh. split.
  - exists parent. apply list_lookup_insert_eq. rewrite length_app. lia.
  - rewrite list_lookup_insert_ne by lia. by apply list_lookup_middle.
Qed.

(** X3: [hardbus::WaitAndConnectService] on an unbound access object:
    when the wait returns and the service name still has an owner at the
    moment the connect step asks, the call returns true and the access
    object is bound to a newly constructed import adaptor. *)
Theorem wait_and_connect_binds a (evs : list Event) w b w1 rest :
  unbound a w →
  WaitForServiceRegistration_Traits T evs w = Some (b, w1, rest) →
  IsServiceRegistered_Traits T (apply_events T rest w1) = true →
  ∃ w', WaitAndConnectService T (Some a) evs w = Some (true, w')
        ∧ bound a (length (heap w)) w'
        ∧ heap_bind a (heap w) (heap w').
Proof.
  intros Ha Hwait Hreg. rewrite WaitAndConnectService_composite, Hwait.
  apply WaitForServiceRegistration_heap in Hwait.
  assert (Hh : heap (apply_events T rest w1) = heap w) by (by rewrite apply_events_heap).
  assert (Hu : unbound a (apply_events T rest w1)) by (by eapply unbound_heap; [|exact Ha]).
  destruct (ConnectService_unbound T a _ Hreg Hu) as (parent & Hp & Hconn).
  rewrite Hconn. eexists. split; [done|].
  assert (Hbind : heap_bind a (heap w)
            (<[a := AccessObj (Some (length (heap w))) parent]> (heap w ++ [ImportObj a]))).
  { exists parent. by rewrite <- Hh. }
  split; [|unfold_world; by rewrite !Hh].
  eapply heap_bind_bound; [done|]. unfold_world. by rewrite !Hh.
Qed.

(** X4: [ConnectService] on an unbound access object while the service is
    registered returns true; exactly one object is added to the client,
    the import adaptor of that access object, and the access object points
    to it; every other object is as before.  Beyond the query whether the
    name has an owner, the bus is left alone: no registration and no call
    is sent, the name and object tables are unchanged, and nothing is
    printed. *)
Theorem connect_success a w :
  IsServiceRegistered_Traits T w = true → unbound a w →
  ∃ w', ConnectService T (Some a) w = (true, w')
        ∧ bound a (length (heap w)) w'
        ∧ length (heap w') = S (length (heap w))
        ∧ (∀ i, i ≠ a → i < length (heap w) → heap w' !! i = heap w !! i)
        ∧ names w' = names w ∧ objects w' = objects w ∧ requests w' = requests w
        ∧ impls w' = impls w ∧ adaptors w' = adaptors w ∧ log w' = log w.
Proof.
  intros Hreg Ha.
  destruct (ConnectService_unbound T a w Hreg Ha) as (parent & Hp & ->).
  eexists. split; [done|]. unfold_world. split.
  { eapply heap_bind_bound; [done|]. exists parent. by unfold_world. }
  split; [rewrite length_insert, length_app; cbn; lia|].
  split; [|done].
  intros i Hia Hi. rewrite list_lookup_insert_ne by done. by apply lookup_app_l.
Qed.

(** X5: a pointer that is null or does not point to an access object is
    rejected with the wrong-instance warning and nothing else changes: by
    [ConnectService] when the service is registered, and by the generated
    [TAG::WaitAndConnectService] whenever its wait returns. *)
Theorem connect_wrong_instance (service : option addr) w :
  (∀ a d parent, service = Some a → heap w !! a ≠ Some (AccessObj d parent)) →
  (IsServiceRegistered_Traits T w = true →
   ConnectService T service w = (false, qWarning (WarnWrongInstance svc) w))
  ∧ (∀ (evs : list Event) b w1 rest,
       WaitForServiceRegistration T svc evs w = Some (b, w1, rest) →
       TAG_WaitAndConnectService T service evs w
       = Some (false, qWarning (WarnWrongInstance svc) (apply_events T rest w1))).
Proof.
  intros Hnot.
  assert (Hcast : ∀ w0, heap w0 = heap w → qobject_cast_access service w0 = None).
  { intros w0 Hh. destruct service as [a|]; [|done]. cbn. rewrite Hh.
    destruct (heap w !! a) as [[d parent| |]|] eqn:Ha; try done.
    by destruct (Hnot a d parent eq_refl). }
  split.
  - intros Hreg. unfold ConnectService. rewrite Hreg. cbn [negb].
    by rewrite Hcast.
  - intros evs b w1 rest Hwait. unfold TAG_WaitAndConnectService. rewrite Hwait.
    apply WaitForServiceRegistration_heap in Hwait.
    rewrite Hcast; [done|]. by rewrite apply_events_heap.
Qed.

(** X6: the generated [TAG::WaitAndConnectService] on an unbound access
    object binds it and returns true whenever its wait returns; the bus is
    not asked again, so this holds whether or not the service name still
    has an owner by then. *)
Theorem TAG_wait_and_connect_binds a (evs : list Event) w b w1 rest :
  unbound a w →
  WaitForServiceRegistration T svc evs w = Some (b, w1, rest) →
  ∃ w', TAG_WaitAndConnectService T (Some a) evs w = Some (true, w')
        ∧ bound a (length (heap w)) w'
        ∧ names w' = names (apply_events T rest w1)
        ∧ log w' = log (apply_events T rest w1).
Proof.
  intros Ha Hwait.
  destruct (TAG_WaitAndConnectService_unbound T a evs w b w1 rest Hwait Ha)
    as (parent & Hp & ->).
  eexists. split; [done|]. split; [|done].
  apply WaitForServiceRegistration_heap in Hwait.
  eapply heap_bind_bound; [done|]. exists parent. unfold_world.
  by rewrite apply_events_heap, Hwait.
Qed.

(** X7: the connection state of an access object moves one way.  In one
    step of the world an unbound access object stays unbound or becomes
    bound to the import adaptor constructed in that step, and a bound one
    stays bound to the same import adaptor. *)
Theorem lifecycle_step a w w' :
  step T invoke w w' →
  (unbound a w → unbound a w' ∨ bound a (length (heap w)) w')
  ∧ (∀ p, bound a p w → bound a p w').
Proof.
  intros Hstep. apply step_heap in Hstep. split.
  - intros [parent Ha].
    destruct Hstep as [Hh|[(a' & Hbind)|[parent' Hh]]].
    + left. exists parent. by rewrite Hh.
    + destruct (decide (a' = a)) as [->|Hne].
      * right. by eapply heap_bind_bound.
      * left. destruct Hbind as (parent' & Ha' & Hh). exists parent. rewrite Hh.
        rewrite list_lookup_insert_ne by done. by apply lookup_app_l_Some.
    + left. exists parent. rewrite Hh. by apply lookup_app_l_Some.
  - intros p Hb. by eapply bound_step.
Qed.

(** ** Method calls *)

Lemma pack_recode (ts : list ArgType) (a : args_t ts) :
  FromProxy_args ts
    (pack_map FromProxyConverter.make ts
       (pack_map ToProxyConverter.to_QString ts (ToProxy_pack ts a)))
  = recode_args ts a.
Proof.
  induction ts as [|t ts IH]; [done|].
  destruct a as [v a]. cbn. by rewrite IH.
Qed.

Lemma recode_args_lawful (ts : list ArgType) (a : args_t ts) :
  lawful_args ts → recode_args ts a = a.
Proof.
  induction ts as [|t ts IH]; intros Hlaw; [by destruct a|].
  destruct a as [v a], Hlaw as [Ht Hts]. cbn. rewrite IH by done.
  f_equal. apply Ht.
Qed.

Lemma recode_out_lawful (out : option ArgType) (r : ret_t out) :
  lawful_out out → recode_out out r = r.
Proof. destruct out as [t|]; cbn; [intros Ht; apply Ht | by destruct r]. Qed.

Lemma reply_recode (out : option ArgType) (r : ret_t out) :
  ReturnValueOrVoid out
    (Return (CreaeteFromReturnValue_From
               (QDBusReply_value
                  (Some (ToProxyConverter.to_QString (CreaeteFromReturnValue_To out r))))))
  = Return (recode_out out r).
Proof. by destruct out. Qed.

(** A call through a bound access object while the service is exported,
    with nothing assumed about the converters. *)
Lemma call_bound_exported a p impl (st : State) (m : method T)
    (args : args_t (m_args (method_sig T m))) w :
  API_ok T → m ∈ methods T →
  bound a p w → is_exported T impl w → impls w !! impl = Some st →
  let typed := recode_args _ args in
  facade_call T invoke a m args w
  = Some (Return (recode_out _ (fst (invoke m typed st))),
          set_impls (λ l, <[impl := snd (invoke m typed st)]> l)
            (send (ReqCall svc path iface (m_name (method_sig T m))
                     (flatten _ (pack_map ToProxyConverter.to_QString _
                                   (ToProxy_pack _ args))))
               w)).
Proof.
  intros Hapi Hm [[parent Ha] _] Hexp Hst typed.
  pose proof (is_exported_adaptor _ _ _ Hexp) as Had.
  destruct Hexp as (Hname & Hobj & _ & _).
  unfold facade_call. rewrite Ha. f_equal.
  unfold AccessFor_FUNC, ProxyCallHelper2, ProxyCallHelper, ImportAdaptorFor_FUNC,
    CallFuncOverDBus, call.
  unfold_world. rewrite Hname, Hobj, Hst.
  rewrite bool_decide_eq_true_2 by done. rewrite String.eqb_refl. cbn [andb].
  rewrite length_flatten, find_method_declared by done.
  rewrite unflatten_flatten.
  unfold ExporAdaptorFor_FUNC, ProxyCallHelper1, ProxyCallHelper.
  rewrite pack_recode. fold typed.
  destruct (invoke m typed st) as [r st']. cbn [fst snd].
  by rewrite reply_recode.
Qed.

(** X8: a call through a bound access object while the service is
    exported, whatever the registered converters do: the implementation
    runs once, on the arguments as they come out of [FromString] of
    [ToString], and the caller gets the return value as it comes out of
    [FromString] of [ToString]; the header adds no other change. *)
Theorem call_marshalling_general a p impl (st : State) (m : method T)
    (args : args_t (m_args (method_sig T m))) w :
  API_ok T → m ∈ methods T →
  bound a p w → is_exported T impl w → impls w !! impl = Some st →
  facade_call T invoke a m args w
  = Some (Return (recode_out _ (fst (invoke m (recode_args _ args) st))),
          set_impls (λ l, <[impl := snd (invoke m (recode_args _ args) st)]> l)
            (send (ReqCall svc path iface (m_name (method_sig T m))
                     (flatten _ (pack_map ToProxyConverter.to_QString _
                                   (ToProxy_pack _ args))))
               w)).
Proof. intros. by eapply call_bound_exported. Qed.

(** X9: a call through a bound access object never throws and sends
    exactly one call request, carrying the method name and the encoded
    arguments in order; it changes neither the objects of the client nor
    the registrations on the bus, and it prints nothing. *)
Theorem bound_call_one_dispatch a p (m : method T)
    (args : args_t (m_args (method_sig T m))) w :
  (∃ parent, heap w !! a = Some (AccessObj (Some p) parent)) →
  ∃ r w',
    facade_call T invoke a m args w = Some (Return r, w')
    ∧ requests w'
      = requests w
        ++ [ReqCall svc path iface (m_name (method_sig T m))
              (flatten _ (pack_map ToProxyConverter.to_QString _ (ToProxy_pack _ args)))]
    ∧ heap w' = heap w ∧ log w' = log w
    ∧ names w' = names w ∧ objects w' = objects w ∧ adaptors w' = adaptors w
    ∧ length (impls w') = length (impls w).
Proof.
  intros [parent Ha]. unfold facade_call. rewrite Ha.
  unfold AccessFor_FUNC, ProxyCallHelper2, ProxyCallHelper, ImportAdaptorFor_FUNC,
    CallFuncOverDBus, call.
  unfold_world.
  repeat case_match; simplify_eq; cbn [ReturnValueOrVoid];
    destruct (m_out (method_sig T m)); do 2 eexists; (split; [reflexivity|]);
    unfold_world; rewrite ?length_insert; done.
Qed.

(** X10: a call through a bound access object when the service name is
    not owned by the host, or no object is registered at the service path:
    the error reply is read as an empty string, so the call returns what a
    default-constructed [FromProxyConverter] converts to; no exception is
    thrown and no implementation object changes. *)
Theorem call_service_gone a p (m : method T)
    (args : args_t (m_args (method_sig T m))) w :
  (∃ parent, heap w !! a = Some (AccessObj (Some p) parent)) →
  names w !! svc ≠ Some HostConn ∨ objects w !! path = None →
  facade_call T invoke a m args w
  = Some (ReturnValueOrVoid (m_out (method_sig T m)) (Return FromProxyConverter.default),
          send (ReqCall svc path iface (m_name (method_sig T m))
                  (flatten _ (pack_map ToProxyConverter.to_QString _ (ToProxy_pack _ args))))
            w).
Proof.
  intros [parent Ha] Hgone. unfold facade_call. rewrite Ha.
  unfold AccessFor_FUNC, ProxyCallHelper2, ProxyCallHelper, ImportAdaptorFor_FUNC,
    CallFuncOverDBus, call.
  unfold_world.
  destruct (names w !! svc) as [[]|] eqn:Hname; try done.
  destruct (objects w !! path) as [obj|] eqn:Hobj; [|done].
  by destruct Hgone.
Qed.

(** ** Exporting *)

Lemma RegisterService_frame impl w :
  impls (snd (RegisterService T impl w)) = impls w
  ∧ heap (snd (RegisterService T impl w)) = heap w.
Proof.
  unfold RegisterService, ExporAdaptorFor_ctor, ExportAdaptor, registerObject,
    registerService. unfold_world.
  destruct (objects w !! path); cbn [negb]; unfold_world; [done|].
  by destruct (names w !! svc) as [[]|].
Qed.

Lemma RegisterService_path_taken impl w :
  is_Some (objects w !! path) →
  fst (RegisterService T impl w) = Throw ("Cannot register object at path" +:+ path)
  ∧ objects (snd (RegisterService T impl w)) = objects w
  ∧ names (snd (RegisterService T impl w)) = names w
  ∧ adaptors (snd (RegisterService T impl w)) = adaptors w.
Proof.
  intros [obj Hobj].
  unfold RegisterService, ExporAdaptorFor_ctor, ExportAdaptor, registerObject.
  unfold_world. by rewrite Hobj.
Qed.

(** Once an object is registered at the service path, nothing another
    process does changes the object table. *)
Lemma apply_events_path_taken (evs : list Event) w :
  is_Some (objects w !! path) → objects (apply_events T evs w) = objects w.
Proof.
  revert w. induction evs as [|e evs IH]; intros w Hobj; [done|].
  rewrite apply_events_cons.
  assert (He : objects (apply_event T e w) = objects w).
  { destruct e as [name|name|service]; cbn.
    - by destruct (names w !! name).
    - done.
    - by apply RegisterService_path_taken. }
  rewrite IH; [done|]. by rewrite He.
Qed.

(** X11: a service is exported at most once.  After a successful
    [RegisterService], and whatever other processes do to the bus, every
    further [RegisterService] throws at the object registration and
    registers nothing: the object table, the name table and the live
    adaptors stay as they are. *)
Theorem second_export_fails impl impl' (evs : list Event) w w1 :
  RegisterService T impl w = (Return tt, w1) →
  let w2 := apply_events T evs w1 in
  fst (RegisterService T impl' w2) = Throw ("Cannot register object at path" +:+ path)
  ∧ objects (snd (RegisterService T impl' w2)) = objects w1
  ∧ names (snd (RegisterService T impl' w2)) = names w2
  ∧ adaptors (snd (RegisterService T impl' w2)) = adaptors w2.
Proof.
  intros Hreg w2.
  assert (Hobj : is_Some (objects w1 !! path)).
  { revert Hreg.
    unfold RegisterService, ExporAdaptorFor_ctor, ExportAdaptor, registerObject,
      registerService. unfold_world.
    destruct (objects w !! path); cbn [negb]; unfold_world; [done|].
    destruct (names w !! svc) as [[]|]; cbn [negb]; unfold_world; intros [= <-];
      unfold_world; rewrite lookup_insert_eq; by eexists. }
  assert (Hobj2 : objects w2 = objects w1) by (by apply apply_events_path_taken).
  destruct (RegisterService_path_taken impl' w2) as (H1 & H2 & H3 & H4).
  { by rewrite Hobj2. }
  by rewrite H1, H2, H3, H4, Hobj2.
Qed.

Lemma host_exclusive_ext w1 w2 :
  objects w1 = objects w2 → adaptors w1 = adaptors w2 →
  host_exclusive T w1 → host_exclusive T w2.
Proof. unfold host_exclusive. by intros -> ->. Qed.

Lemma host_exclusive_event e w : host_exclusive T w → host_exclusive T (apply_event T e w).
Proof.
  destruct e as [name|name|service]; cbn.
  - by destruct (names w !! name).
  - done.
  - unfold host_exclusive, RegisterService, ExporAdaptorFor_ctor, ExportAdaptor,
      registerObject, registerService. unfold_world.
    destruct (objects w !! path) as [o|] eqn:Hobj; cbn [negb]; unfold_world.
    + by rewrite Hobj.
    + intros Hw.
      destruct (names w !! svc) as [[]|]; cbn [negb]; unfold_world;
        rewrite lookup_insert_eq, ?Hw; cbn; auto.
Qed.

Lemma host_exclusive_events (evs : list Event) w :
  host_exclusive T w → host_exclusive T (apply_events T evs w).
Proof.
  revert w. induction evs as [|e evs IH]; intros w Hw; [done|].
  rewrite apply_events_cons. by apply IH, host_exclusive_event.
Qed.

Lemma loop_exec_events name (evs : list Event) w w' rest :
  loop_exec T name evs w = Some (w', rest) →
  apply_events T rest w' = apply_events T evs w.
Proof.
  revert w. induction evs as [|e evs IH]; intros w; [done|].
  cbn [loop_exec]. destruct (_ && _).
  - by intros [= <- <-].
  - intros H. rewrite apply_events_cons. by apply IH.
Qed.

(** The events the wait has consumed and those it has left make up the
    events given. *)
Lemma WaitForServiceRegistration_events name (evs : list Event) w b w' rest :
  WaitForServiceRegistration T name evs w = Some (b, w', rest) →
  apply_events T rest w' = apply_events T evs w.
Proof.
  unfold WaitForServiceRegistration. destruct (IsServiceRegistered name w).
  - by intros [= <- <- <-].
  - destruct (loop_exec T name evs w) as [[w1 r1]|] eqn:Hloop; [|done].
    intros [= <- <- <-]. by eapply loop_exec_events.
Qed.

Lemma ConnectService_host service w :
  objects (snd (ConnectService T service w)) = objects w
  ∧ adaptors (snd (ConnectService T service w)) = adaptors w.
Proof.
  destruct (ConnectService T service w) as [[] w'] eqn:Hconn.
  - by apply ConnectService_true in Hconn as (a & parent & _ & _ & _ & ->).
  - by apply ConnectService_false in Hconn as [msg ->].
Qed.

Lemma TAG_WaitAndConnectService_host service (evs : list Event) w b w' :
  TAG_WaitAndConnectService T service evs w = Some (b, w') →
  objects w' = objects (apply_events T evs w)
  ∧ adaptors w' = adaptors (apply_events T evs w).
Proof.
  unfold TAG_WaitAndConnectService.
  destruct (WaitForServiceRegistration T svc evs w) as [[[b0 w0] rest]|] eqn:Hwait; [|done].
  apply WaitForServiceRegistration_events in Hwait. rewrite <- Hwait.
  unfold ImportAdaptorFor_ctor, set_dbus_interface_.
  repeat case_match; intros; simplify_eq; done.
Qed.

Lemma facade_call_host service (m : method T)
    (args : args_t (m_args (method_sig T m))) w r w' :
  facade_call T invoke service m args w = Some (r, w') →
  objects w' = objects w ∧ adaptors w' = adaptors w.
Proof.
  unfold facade_call. destruct (heap w !! service) as [[d parent| |]|]; try done.
  unfold AccessFor_FUNC, ProxyCallHelper2, ProxyCallHelper, ImportAdaptorFor_FUNC,
    CallFuncOverDBus, call.
  destruct d as [d|]; [|by intros [= <- <-]].
  unfold_world.
  repeat case_match; intros; simplify_eq; done.
Qed.

Lemma host_exclusive_step w w' :
  step T invoke w w' → host_exclusive T w → host_exclusive T w'.
Proof.
  intros Hstep Hw. destruct Hstep as [e w|parent w|service w|service evs w b w' H
                                     |service evs w b w' H|service m args w r w' H].
  - by apply host_exclusive_event.
  - done.
  - destruct (ConnectService_host service w) as [Ho Ha].
    by eapply host_exclusive_ext; [symmetry; exact Ho|symmetry; exact Ha|].
  - rewrite WaitAndConnectService_composite in H.
    destruct (WaitForServiceRegistration_Traits T evs w) as [[[b0 w0] rest]|] eqn:Hwait;
      [|done].
    apply WaitForServiceRegistration_events in Hwait.
    injection H as H.
    destruct (ConnectService_host service (apply_events T rest w0)) as [Ho Ha].
    rewrite H in Ho, Ha. cbn [snd] in Ho, Ha.
    eapply host_exclusive_ext; [symmetry; exact Ho|symmetry; exact Ha|].
    rewrite Hwait. by apply host_exclusive_events.
  - apply TAG_WaitAndConnectService_host in H as [Ho Ha].
    eapply host_exclusive_ext; [symmetry; exact Ho|symmetry; exact Ha|].
    by apply host_exclusive_events.
  - apply facade_call_host in H as [Ho Ha].
    by eapply host_exclusive_ext; [symmetry; exact Ho|symmetry; exact Ha|].
Qed.

(** X12: starting with nothing registered at the service path and no
    export adaptor, in every world reached by any steps at most one export
    adaptor of the service is alive, and it is the one of the object
    registered at the service path. *)
Theorem one_export_adaptor w0 w :
  objects w0 !! path = None → adaptors w0 = [] →
  rtc (step T invoke) w0 w →
  length (adaptors w) ≤ 1
  ∧ ∀ impl, impl ∈ adaptors w → objects w !! path = Some impl.
Proof.
  intros Hobj Had Hsteps.
  assert (Hw : host_exclusive T w).
  { assert (H0 : host_exclusive T w0) by (unfold host_exclusive; by rewrite Hobj).
    clear Hobj Had. induction Hsteps as [w|w w1 w2 Hstep _ IH]; [done|].
    by eapply IH, host_exclusive_step. }
  unfold host_exclusive in Hw.
  destruct (objects w !! path) as [obj|].
  - destruct Hw as [->| ->]; cbn.
    + split; [lia|]. intros impl H. by apply elem_of_nil in H.
    + split; [lia|]. intros impl H. apply list_elem_of_singleton in H. by subst.
  - rewrite Hw. cbn. split; [lia|]. intros impl H. by apply elem_of_nil in H.
Qed.

(** X13: starting from a client without objects, in every world reached by
    any steps each import adaptor is the one its access object is bound
    to; an access object therefore never has two import adaptors. *)
Theorem one_import_adaptor w0 w :
  heap w0 = [] → rtc (step T invoke) w0 w →
  ∀ i a, heap w !! i = Some (ImportObj a) →
         bound a i w ∧ ∀ j, heap w !! j = Some (ImportObj a) → j = i.
Proof.
  intros Hempty Hsteps.
  assert (Hok : heap_ok w).
  { eapply heap_ok_steps; [|exact Hsteps].
    intros i a. by rewrite Hempty. }
  intros i a Hi.
  pose proof (Hok _ _ Hi) as Hget. apply get_dbus_interface_Some in Hget.
  assert (Hb : bound a i w) by done.
  split; [done|]. intros j Hj. by eapply heap_ok_single_import.
Qed.

(** ** Signals *)

Lemma deliver_unobserved a w bs :
  heap_ok w → unbound a w → observed a (deliver T w bs) = [].
Proof.
  intros Hok [parent Ha]. unfold observed, deliver.
  rewrite filter_flat_map. apply flat_map_nil_ext. intros o Ho.
  destruct o as [d q|i|]; [done| |done].
  apply filter_none. intros e He Hea.
  apply ImportAdaptorFor_SIGNAL_obj in He. subst i a.
  apply list_elem_of_lookup in Ho as [j Hj].
  specialize (Hok _ _ Hj). unfold get_dbus_interface_ in Hok.
  by rewrite Ha in Hok.
Qed.

Lemma relay_all_unobserved a (es : list (Emission T)) w out :
  (∀ bss : list BusSignal, observed a (flat_map (deliver T w) bss) = []) →
  relay_all T w es = Some out → observed a out = [].
Proof.
  intros Hdel. revert out. induction es as [|e es IH]; intros out.
  - by intros [= <-].
  - cbn [relay_all]. unfold relay at 1.
    destruct (fire T w e) as [bss|]; [|done]. cbn [fmap option_fmap option_map].
    destruct (relay_all T w es) as [outs|]; [|done]. intros [= <-].
    unfold observed in *. by rewrite filter_app, Hdel, (IH outs).
Qed.

(** X14: signals do not reach an access object that is not connected:
    whatever signals arrive from the bus, application code connected to an
    unbound access object sees nothing; in particular it sees nothing of
    whatever the implementation fires. *)
Theorem signals_before_connect_dropped a (es : list (Emission T)) w :
  heap_ok w → unbound a w →
  (∀ bss : list BusSignal, observed a (flat_map (deliver T w) bss) = [])
  ∧ (∀ out, relay_all T w es = Some out → observed a out = []).
Proof.
  intros Hok Ha.
  assert (Hdel : ∀ bss : list BusSignal, observed a (flat_map (deliver T w) bss) = []).
  { intros bss.
    change (observed a (flat_map (deliver T w) bss))
      with (filter (λ e : Emission T, em_obj e = a) (flat_map (deliver T w) bss)).
    rewrite filter_flat_map. apply flat_map_nil_ext. intros bs _.
    by apply deliver_unobserved. }
  split; [done|]. intros out. by apply relay_all_unobserved.
Qed.

(** X15: with the service exported, no connector of a destroyed export
    adaptor left on the implementation object, the access object bound, an
    interface whose signals differ in name or arity and lawful converters
    for the signal parameters, the relay is defined and application code
    sees on the access object exactly the emissions fired on the
    implementation: the same signals with the same arguments, in the same
    order. *)
Theorem signal_arguments_preserved a p impl (es : list (Emission T)) w :
  API_ok T → heap_ok w → bound a p w → is_exported T impl w → impl ∉ dangling w →
  Forall (λ e, em_obj e = impl ∧ em_signal e ∈ signals T
               ∧ lawful_args (s_args (signal_sig T (em_signal e)))) es →
  ∃ out,
    relay_all T w es = Some out
    ∧ observed a out
      = (λ e, {| em_obj := a; em_signal := em_signal e; em_args := em_args e |}) <$> es.
Proof.
  intros Hapi Hok Hb Hexp Hdang Hes.
  induction Hes as [|e es (Hobj & Hs & Hlaw) _ IH]; [by exists []|].
  destruct IH as (outs & Hall & Hexact).
  destruct (relay_observed T a p impl w e Hok Hb Hexp Hdang Hobj Hs)
    as (out & Hrelay & Hobs).
  exists (out ++ outs). cbn [relay_all]. rewrite Hrelay, Hall. split; [done|].
  unfold observed in *. rewrite filter_app, Hexact, Hobs.
  destruct Hexp as [Hname _].
  by rewrite import_relayed_exact.
Qed.

(** A connector of a destroyed adaptor is never detached: what other
    processes do only adds to them. *)
Lemma apply_events_dangling impl (evs : list Event) w :
  impl ∈ dangling w → impl ∈ dangling (apply_events T evs w).
Proof.
  revert w. induction evs as [|e evs IH]; intros w Hin; [done|].
  rewrite apply_events_cons. apply IH.
  destruct e as [name|name|service]; cbn.
  - by destruct (names w !! name).
  - done.
  - unfold RegisterService, ExporAdaptorFor_ctor, ExportAdaptor, registerObject,
      registerService. unfold_world.
    destruct (objects w !! path); cbn [negb]; unfold_world.
    + apply elem_of_app. by left.
    + destruct (names w !! svc) as [[]|]; cbn [negb]; unfold_world;
        try done; apply elem_of_app; by left.
Qed.

(** A successful construction leaves no connector of a destroyed adaptor
    behind. *)
Lemma RegisterService_success_dangling impl w w' :
  RegisterService T impl w = (Return tt, w') → dangling w' = dangling w.
Proof.
  unfold RegisterService, ExporAdaptorFor_ctor, ExportAdaptor, registerObject,
    registerService. unfold_world.
  destruct (objects w !! path); cbn [negb]; unfold_world; [done|].
  destruct (names w !! svc) as [[]|]; cbn [negb]; unfold_world; try done;
    by intros [= <-].
Qed.

(** X18: an export adaptor whose constructor throws leaves its signal
    connectors attached to the implementation object.  From then on,
    whatever other processes do, firing a declared signal on that object
    runs a connector of the destroyed adaptor: the firing is undefined. *)
Theorem fire_after_failed_export impl what (evs : list Event) (e : Emission T) w :
  fst (RegisterService T impl w) = Throw what →
  em_obj e = impl → em_signal e ∈ signals T →
  fire T (apply_events T evs (snd (RegisterService T impl w))) e = None.
Proof.
  intros Hthrow Hobj Hs.
  assert (Hin : impl ∈ dangling (snd (RegisterService T impl w))).
  { revert Hthrow.
    unfold RegisterService, ExporAdaptorFor_ctor, ExportAdaptor, registerObject,
      registerService. unfold_world.
    destruct (objects w !! path); cbn [negb]; unfold_world.
    - intros _. apply elem_of_app. right. apply elem_of_cons. by left.
    - destruct (names w !! svc) as [[]|]; cbn [negb]; unfold_world; try done;
        intros _; apply elem_of_app; right; apply elem_of_cons; by left. }
  apply (apply_events_dangling impl evs) in Hin.
  unfold fire. destruct (find_signal_declared T _ Hs) as (s' & -> & _).
  rewrite Hobj. by rewrite bool_decide_eq_true_2.
Qed.

(** ** From export to call *)

(** X16: export, create and connect, call.  After a successful
    [RegisterService] for an implementation object in state [st],
    [TAG::CreateAndConnectService] with nothing else happening on the bus
    returns a new access object, and a call of a declared method through
    it returns what the implementation returns on the given arguments and
    leaves the implementation in the state that one invocation produces
    (lawful converters assumed). *)
Theorem export_connect_call impl (st : State) parent (m : method T)
    (args : args_t (m_args (method_sig T m))) w0 w1 :
  API_ok T → m ∈ methods T →
  lawful_args (m_args (method_sig T m)) → lawful_out (m_out (method_sig T m)) →
  host_ok T w0 → impls w0 !! impl = Some st →
  RegisterService T impl w0 = (Return tt, w1) →
  ∃ w2,
    TAG_CreateAndConnectService T parent [] w1 = Some (length (heap w1), w2)
    ∧ facade_call T invoke (length (heap w1)) m args w2
      = Some (Return (fst (invoke m args st)),
              set_impls (λ l, <[impl := snd (invoke m args st)]> l)
                (send (ReqCall svc path iface (m_name (method_sig T m))
                         (flatten _ (pack_map ToProxyConverter.to_QString _
                                       (ToProxy_pack _ args))))
                   w2)).
Proof.
  intros Hapi Hm Hargs Hout Hhost Hst Hreg.
  assert (Hexp : is_exported T impl w1).
  { eapply RegisterService_is_exported; [done| |done]. by eexists. }
  assert (Hst1 : impls w1 !! impl = Some st).
  { destruct (RegisterService_frame impl w0) as [Hi _].
    rewrite Hreg in Hi. cbn [snd] in Hi. by rewrite Hi. }
  set (created := snd (TAG_CreateServiceInterface parent w1)).
  destruct (CreateServiceInterface_unbound parent w1) as [_ Hfresh].
  change (unbound (length (heap w1)) created) in Hfresh.
  assert (Hregd : IsServiceRegistered svc created = true).
  { destruct Hexp as [Hname _]. unfold IsServiceRegistered, isServiceRegistered.
    unfold created, TAG_CreateServiceInterface, AccessFor_ctor. unfold_world.
    by rewrite Hname. }
  pose proof (WaitForServiceRegistration_now T svc [] created Hregd) as Hwait.
  destruct (TAG_WaitAndConnectService_unbound T _ _ _ _ _ _ Hwait Hfresh)
    as (parent' & Hp & Htag).
  eexists. split.
  { unfold TAG_CreateAndConnectService.
    change (TAG_CreateServiceInterface parent w1) with (length (heap w1), created).
    cbn beta iota. by rewrite Htag. }
  rewrite (call_bound_exported (length (heap w1)) (length (heap created)) impl st m args);
    try done.
  - cbn zeta. by rewrite recode_args_lawful, recode_out_lawful.
  - eapply (heap_bind_bound _ (heap created) created); [done|].
    exists parent'. by unfold_world.
Qed.

End Further.

(** ** Low level macros *)

(** X17: [HARDBUS_INTERNAL_HAS_COMMA_] counts the pieces of its
    macro-expanded arguments, and only up to fifteen: it expands to [0]
    when the expansion is one piece, to [1] when it is two to fifteen
    pieces, and from sixteen pieces on to the sixteenth piece itself. *)
Theorem HAS_COMMA_arity (pieces : list string → list string) (args : list string) :
  (length (pieces args) = 1 → HARDBUS_INTERNAL_HAS_COMMA_ pieces args = Some "0")
  ∧ (2 ≤ length (pieces args) ≤ 15 → HARDBUS_INTERNAL_HAS_COMMA_ pieces args = Some "1")
  ∧ (16 ≤ length (pieces args)
     → HARDBUS_INTERNAL_HAS_COMMA_ pieces args = pieces args !! 15).
Proof.
  unfold HARDBUS_INTERNAL_HAS_COMMA_, HARDBUS_INTERNAL_ARG16_.
  split; [|split].
  - intros Hlen. destruct (pieces args) as [|x [|y l]]; done.
  - intros Hlen. rewrite lookup_app_r by lia.
    assert (Hlt : 15 - length (pieces args) < 14) by lia.
    rewrite lookup_app_l by (rewrite length_replicate; lia).
    by apply lookup_replicate_2.
  - intros Hlen. by rewrite lookup_app_l by lia.
Qed.

Lemma HAS_COMMA_arity_witness :
  HARDBUS_INTERNAL_HAS_COMMA_ Demo.pieces ["int"] = Some "0"
  ∧ HARDBUS_INTERNAL_HAS_COMMA_ Demo.pieces ["int"; "QString"] = Some "1"
  ∧ HARDBUS_INTERNAL_HAS_COMMA_ Demo.pieces ["HARDBUS_INTERNAL_TRIGGER_PARENTHESIS_ ()"]
    = Some "1".
Proof.
  split; [|split].
  - apply (HAS_COMMA_arity Demo.pieces ["int"]). reflexivity.
  - apply (HAS_COMMA_arity Demo.pieces ["int"; "QString"]). vm_compute. lia.
  - apply (HAS_COMMA_arity Demo.pieces ["HARDBUS_INTERNAL_TRIGGER_PARENTHESIS_ ()"]).
    vm_compute. lia.
Defined.

(** ** The further properties on the demo service *)

Lemma demo_connected_exported : is_exported Demo.traits 0 Demo.connected.
Proof. repeat split; try reflexivity. by eexists. Qed.

Lemma demo_connected_bound : bound 0 1 Demo.connected.
Proof. split; [by exists None | reflexivity]. Qed.

Lemma demo_connected_heap_ok : heap_ok Demo.connected.
Proof. intros [|[|[|i]]] service H; try discriminate H. by injection H as <-. Qed.

Lemma demo_waiting_unbound : unbound 0 Demo.waiting.
Proof. by exists None. Qed.

Lemma demo_created_unbound : unbound 0 Demo.created.
Proof. by exists None. Qed.

Lemma wait_returns_at_first_registration_witness :
  ∃ k, k ≤ 2
       ∧ apply_events Demo.traits [HostExports 0] Demo.waiting
         = apply_events Demo.traits
             (take k [HostExports 0; NameReleased "org.demo.Service"]) Demo.waiting
       ∧ [NameReleased "org.demo.Service"]
         = drop k [HostExports 0; NameReleased "org.demo.Service"]
       ∧ IsServiceRegistered "org.demo.Service"
           (apply_events Demo.traits [HostExports 0] Demo.waiting) = true
       ∧ ∀ j, j < k →
              IsServiceRegistered "org.demo.Service"
                (apply_events Demo.traits
                   (take j [HostExports 0; NameReleased "org.demo.Service"])
                   Demo.waiting) = false.
Proof.
  apply (wait_returns_at_first_registration Demo.traits "org.demo.Service"
           [HostExports 0; NameReleased "org.demo.Service"] Demo.waiting true
           (apply_events Demo.traits [HostExports 0] Demo.waiting)
           [NameReleased "org.demo.Service"]).
  reflexivity.
Defined.

Lemma wait_and_connect_binds_witness :
  ∃ w', WaitAndConnectService Demo.traits (Some 0) [HostExports 0] Demo.waiting
        = Some (true, w')
        ∧ bound 0 1 w'
        ∧ heap_bind 0 (heap Demo.waiting) (heap w').
Proof.
  apply (wait_and_connect_binds Demo.traits 0 [HostExports 0] Demo.waiting true
           (apply_events Demo.traits [HostExports 0] Demo.waiting) []).
  - exact demo_waiting_unbound.
  - reflexivity.
  - reflexivity.
Defined.

Lemma connect_success_witness :
  ∃ w', ConnectService Demo.traits (Some 0) Demo.created = (true, w')
        ∧ bound 0 1 w'
        ∧ length (heap w') = 2
        ∧ (∀ i, i ≠ 0 → i < 1 → heap w' !! i = heap Demo.created !! i)
        ∧ names w' = names Demo.created ∧ objects w' = objects Demo.created
        ∧ requests w' = requests Demo.created
        ∧ impls w' = impls Demo.created ∧ adaptors w' = adaptors Demo.created
        ∧ log w' = log Demo.created.
Proof.
  apply (connect_success Demo.traits 0 Demo.created).
  - reflexivity.
  - exact demo_created_unbound.
Defined.

Lemma connect_wrong_instance_witness :
  ConnectService Demo.traits None Demo.exported
  = (false, qWarning (WarnWrongInstance "org.demo.Service") Demo.exported).
Proof.
  apply (connect_wrong_instance Demo.traits None Demo.exported).
  - intros a d parent H. discriminate H.
  - reflexivity.
Defined.

Lemma TAG_wait_and_connect_binds_witness :
  ∃ w', TAG_WaitAndConnectService Demo.traits (Some 0)
          [HostExports 0; NameReleased "org.demo.Service"] Demo.waiting
        = Some (true, w')
        ∧ bound 0 1 w'
        ∧ names w'
          = names (apply_events Demo.traits [NameReleased "org.demo.Service"]
                     (apply_events Demo.traits [HostExports 0] Demo.waiting))
        ∧ log w'
          = log (apply_events Demo.traits [NameReleased "org.demo.Service"]
                   (apply_events Demo.traits [HostExports 0] Demo.waiting)).
Proof.
  apply (TAG_wait_and_connect_binds Demo.traits 0
           [HostExports 0; NameReleased "org.demo.Service"] Demo.waiting true
           (apply_events Demo.traits [HostExports 0] Demo.waiting)
           [NameReleased "org.demo.Service"]).
  - exact demo_waiting_unbound.
  - reflexivity.
Defined.

Lemma lifecycle_step_witness :
  (unbound 0 Demo.created → unbound 0 Demo.connected ∨ bound 0 1 Demo.connected)
  ∧ (∀ p, bound 0 p Demo.created → bound 0 p Demo.connected).
Proof.
  apply (lifecycle_step Demo.traits Demo.demo_invoke 0 Demo.created Demo.connected).
  exact (step_connect Demo.traits Demo.demo_invoke (Some 0) Demo.created).
Defined.

Lemma call_marshalling_general_witness :
  facade_call Demo.traits Demo.demo_invoke 0 Demo.check ((-7)%Z, ("y", tt)) Demo.connected
  = Some (Return false,
          set_impls (λ l, <[0 := [((-7)%Z, "y")]]> l)
            (send (ReqCall "org.demo.Service" "/demo" "org.demo.Checker" "check" ["-7"; "y"])
               Demo.connected)).
Proof.
  apply (call_marshalling_general Demo.traits Demo.demo_invoke 0 1 0 [] Demo.check
           ((-7)%Z, ("y", tt)) Demo.connected).
  - exact demo_API_ok.
  - apply elem_of_cons. by left.
  - exact demo_connected_bound.
  - exact demo_connected_exported.
  - reflexivity.
Defined.

Lemma bound_call_one_dispatch_witness :
  ∃ r w',
    facade_call Demo.traits Demo.demo_invoke 0 Demo.check (42%Z, ("x", tt)) Demo.released
    = Some (Return r, w')
    ∧ requests w'
      = requests Demo.released
        ++ [ReqCall "org.demo.Service" "/demo" "org.demo.Checker" "check" ["42"; "x"]]
    ∧ heap w' = heap Demo.released ∧ log w' = log Demo.released
    ∧ names w' = names Demo.released ∧ objects w' = objects Demo.released
    ∧ adaptors w' = adaptors Demo.released
    ∧ length (impls w') = length (impls Demo.released).
Proof.
  apply (bound_call_one_dispatch Demo.traits Demo.demo_invoke 0 1 Demo.check
           (42%Z, ("x", tt)) Demo.released).
  by exists None.
Defined.

Lemma call_service_gone_witness :
  facade_call Demo.traits Demo.demo_invoke 0 Demo.check (42%Z, ("x", tt)) Demo.released
  = Some (Return false,
          send (ReqCall "org.demo.Service" "/demo" "org.demo.Checker" "check" ["42"; "x"])
            Demo.released).
Proof.
  apply (call_service_gone Demo.traits Demo.demo_invoke 0 1 Demo.check
           (42%Z, ("x", tt)) Demo.released).
  - by exists None.
  - left. discriminate.
Defined.

Lemma second_export_fails_witness :
  fst (RegisterService Demo.traits 0
         (apply_events Demo.traits [NameReleased "org.demo.Service"] Demo.exported))
  = Throw "Cannot register object at path/demo".
Proof.
  pose proof (second_export_fails Demo.traits 0 0 [NameReleased "org.demo.Service"]
                Demo.start Demo.exported eq_refl) as H.
  cbn zeta in H. exact (proj1 H).
Defined.

Lemma one_export_adaptor_witness :
  length (adaptors Demo.exported) ≤ 1
  ∧ ∀ impl, impl ∈ adaptors Demo.exported → objects Demo.exported !! "/demo" = Some impl.
Proof.
  apply (one_export_adaptor Demo.traits Demo.demo_invoke Demo.start Demo.exported).
  - reflexivity.
  - reflexivity.
  - apply rtc_once. exact (step_event Demo.traits Demo.demo_invoke (HostExports 0) Demo.start).
Defined.

Lemma one_import_adaptor_witness :
  bound 0 1 Demo.connected
  ∧ ∀ j, heap Demo.connected !! j = Some (ImportObj 0) → j = 1.
Proof.
  apply (one_import_adaptor Demo.traits Demo.demo_invoke Demo.exported Demo.connected).
  - reflexivity.
  - apply (rtc_l _ _ Demo.created).
    + exact (step_create Demo.traits Demo.demo_invoke None Demo.exported).
    + apply rtc_once.
      exact (step_connect Demo.traits Demo.demo_invoke (Some 0) Demo.created).
  - reflexivity.
Defined.

Lemma signals_before_connect_dropped_witness :
  (∀ bss : list BusSignal, observed 0 (flat_map (deliver Demo.traits Demo.created) bss) = [])
  ∧ (∀ out, relay_all Demo.traits Demo.created Demo.firings = Some out
            → observed 0 out = []).
Proof.
  apply (signals_before_connect_dropped Demo.traits 0 Demo.firings Demo.created).
  - exact demo_created_heap_ok.
  - exact demo_created_unbound.
Defined.

Lemma signal_arguments_preserved_witness :
  ∃ out,
    relay_all Demo.traits Demo.connected Demo.firings = Some out
    ∧ observed 0 out = Demo.firings.
Proof.
  apply (signal_arguments_preserved Demo.traits 0 1 0 Demo.firings Demo.connected).
  - exact demo_API_ok.
  - exact demo_connected_heap_ok.
  - exact demo_connected_bound.
  - exact demo_connected_exported.
  - intros H. by apply elem_of_nil in H.
  - repeat constructor. exact int_converter_lawful.
Defined.

Lemma fire_after_failed_export_witness :
  fire Demo.traits
    (apply_events Demo.traits [NameReleased "org.demo.Service"]
       (snd (RegisterService Demo.traits 0 Demo.exported)))
    {| em_obj := 0; em_signal := Demo.changed : signal Demo.traits; em_args := (5%Z, tt) |}
  = None.
Proof.
  apply (fire_after_failed_export Demo.traits 0 "Cannot register object at path/demo"
           [NameReleased "org.demo.Service"]).
  - reflexivity.
  - reflexivity.
  - apply elem_of_cons. by left.
Defined.

Lemma export_connect_call_witness :
  ∃ w2,
    TAG_CreateAndConnectService Demo.traits None [] Demo.exported = Some (0, w2)
    ∧ facade_call Demo.traits Demo.demo_invoke 0 Demo.check (42%Z, ("x", tt)) w2
      = Some (Return true,
              set_impls (λ l, <[0 := [(42%Z, "x")]]> l)
                (send (ReqCall "org.demo.Service" "/demo" "org.demo.Checker" "check"
                         ["42"; "x"])
                   w2)).
Proof.
  apply (export_connect_call Demo.traits Demo.demo_invoke 0 [] None Demo.check
           (42%Z, ("x", tt)) Demo.start Demo.exported).
  - exact demo_API_ok.
  - apply elem_of_cons. by left.
  - exact (conj int_converter_lawful (conj QString_converter_lawful I)).
  - exact bool_converter_lawful.
  - exact demo_start_host_ok.
  - reflexivity.
  - reflexivity.
Defined.
